(** * boltcycle: a pseudo-LRU cache over a cycle of bolt buckets

    Shallow embedding of [src/boltcycle/boltcycle.go] and the properties of
    its rotation, read, write, delete, promotion and integrity-check paths.

    Layout of the development:
    - [Bytes]: Go byte slices, [bytes.Compare], [binary.BigEndian];
    - [Bolt]: the part of the bolt store the package consumes (buckets as
      key-ordered association lists, cursors, transactions);
    - [Heap]: Go's [container/heap] over [cursorHeap];
    - [Boltcycle]: the functions of the package, in source order;
    - the theorems. *)

From Stdlib Require Import ZArith List Bool Lia.
From Stdlib.Strings Require Import Byte String.
From stdpp Require Import base option list sorting gmap.

Local Open Scope Z_scope.

(** ** Byte slices *)

(** A Go [[]byte] or [string]; the nil slice and the empty slice are both
    the empty list (the package only feeds keys to [bytes.Equal], [Seek]
    and [Put], which do not tell them apart).  Where nil matters (a cursor
    that ran off the end, an absent value) the slice is an [option]. *)
Abbreviation bytes := (list byte).

Module Bytes.

Definition byte_to_Z (b : byte) : Z := Z.of_N (Byte.to_N b).

(** Go's conversion [byte(v)]: the low 8 bits. *)
Definition byte_of_Z (z : Z) : byte :=
  default x00 (Byte.of_N (Z.to_N (Z.land z 255))).

(** [bytes.Compare], also the order of Go's [<] on strings and the key
    order of a bolt bucket. *)
Fixpoint compare (a b : bytes) : comparison :=
  match a, b with
  | [], [] => Eq
  | [], _ :: _ => Lt
  | _ :: _, [] => Gt
  | x :: a', y :: b' =>
      match Z.compare (byte_to_Z x) (byte_to_Z y) with
      | Eq => compare a' b'
      | c => c
      end
  end.

Definition ltb (a b : bytes) : bool :=
  match compare a b with Lt => true | _ => false end.
Definition leb (a b : bytes) : bool :=
  match compare a b with Gt => false | _ => true end.
Definition eqb (a b : bytes) : bool :=
  match compare a b with Eq => true | _ => false end.

Definition lt (a b : bytes) : Prop := compare a b = Lt.
Definition le (a b : bytes) : Prop := compare a b <> Gt.

(** [bytes.Equal(k, key)] where [k] may be the nil slice returned by an
    exhausted cursor: Go treats nil and empty as equal. *)
Definition Equal (k : option bytes) (key : bytes) : bool :=
  match k with
  | None => match key with [] => true | _ => false end
  | Some k' => eqb k' key
  end.

(** [binary.BigEndian.Uint64]: [None] is the index-out-of-range panic of
    the bounds check [_ = b[7]]. *)
Definition Uint64 (b : bytes) : option Z :=
  match b with
  | b0 :: b1 :: b2 :: b3 :: b4 :: b5 :: b6 :: b7 :: _ =>
      Some (Z.lor (byte_to_Z b7)
           (Z.lor (Z.shiftl (byte_to_Z b6) 8)
           (Z.lor (Z.shiftl (byte_to_Z b5) 16)
           (Z.lor (Z.shiftl (byte_to_Z b4) 24)
           (Z.lor (Z.shiftl (byte_to_Z b3) 32)
           (Z.lor (Z.shiftl (byte_to_Z b2) 40)
           (Z.lor (Z.shiftl (byte_to_Z b1) 48)
                  (Z.shiftl (byte_to_Z b0) 56))))))))
  | _ => None
  end.

(** [binary.BigEndian.PutUint64] into a fresh [[8]byte]. *)
Definition PutUint64 (v : Z) : bytes :=
  [ byte_of_Z (Z.shiftr v 56); byte_of_Z (Z.shiftr v 48);
    byte_of_Z (Z.shiftr v 40); byte_of_Z (Z.shiftr v 32);
    byte_of_Z (Z.shiftr v 24); byte_of_Z (Z.shiftr v 16);
    byte_of_Z (Z.shiftr v 8); byte_of_Z v ].

(** uint64 addition wraps. *)
Definition u64 (z : Z) : Z := z mod 2 ^ 64.

(** The zero value of [[8]byte]. *)
Definition zero8 : bytes := [x00; x00; x00; x00; x00; x00; x00; x00].

(** Big-endian value of a byte string of any length (used to state the
    facts about [Uint64]). *)
Definition be (l : bytes) : Z :=
  fold_left (fun acc x => acc * 256 + byte_to_Z x) l 0.

End Bytes.

#[global] Instance byte_eq_dec : EqDecision byte := Byte.byte_eq_dec.

#[global] Instance bytes_lt_dec a b : Decision (Bytes.lt a b).
Proof. unfold Bytes.lt. solve_decision. Defined.


(** Byte strings of examples, written as text. *)
Definition str (s : string) : bytes := list_byte_of_string s.

Definition kv (k v : string) : (bytes * bytes) := (str k, str v).

(** ** Results of fallible code *)

(** The package's own errors (lower case, as in the source) and the errors
    of the store that its calls can surface. *)
Inductive error :=
| errUnableToFindRootBucket
| errUnexpectedBucketBytes
| errUnexpectedNonBucket
| errNoLastBucket
| errOrderingWrong
| ErrBucketExists
| ErrBucketNotFound
| ErrBucketNameRequired
| ErrIncompatibleValue
| ErrKeyRequired
| ErrKeyTooLarge
| ErrValueTooLarge
| ErrDatabaseReadOnly.

(** A Go call returns normally, returns a non-nil [error], or panics (an
    index out of range, a nil dereference, a send on a closed channel). *)
Inductive outcome (A : Type) :=
| Ok (a : A)
| Err (e : error)
| Panic.
Arguments Ok {A} a.
Arguments Err {A} e.
Arguments Panic {A}.

#[global] Instance outcome_ret : MRet outcome := fun A a => Ok a.
#[global] Instance outcome_bind : MBind outcome := fun A B f m =>
  match m with
  | Ok a => f a
  | Err e => Err e
  | Panic => Panic
  end.

#[global] Instance outcome_fmap : FMap outcome := fun A B f m =>
  match m with
  | Ok a => Ok (f a)
  | Err e => Err e
  | Panic => Panic
  end.

(** ** The bolt store

    Modelled from the spec: [github.com/boltdb/bolt] is an external
    collaborator (spec section 6) and is not part of the repository.  What
    the package relies on is modelled here: buckets keep their entries in
    [bytes.Compare] order of the keys, a cursor walks them in that order,
    [Seek] lands on the first key that is not smaller than the one sought,
    [Put] inserts or replaces, and a write transaction whose function
    returns an error is rolled back. *)

Module Bolt.

Definition MaxKeySize : Z := 32768.
Definition MaxValueSize : Z := 2147483646.

Section Entries.
Context {V : Type}.

Definition keys (l : list (bytes * V)) : list bytes := l.*1.

(** [Cursor.Seek]: the first entry whose key is not below [k]; [None] is
    the nil key of a cursor that ran off the end. *)
Fixpoint seek (k : bytes) (l : list (bytes * V)) : option (bytes * V) :=
  match l with
  | [] => None
  | (k', v) :: l' => if Bytes.leb k k' then Some (k', v) else seek k l'
  end.

(** Exact lookup, as [Bucket.Get] and [Bucket.Bucket] do it: seek, then
    compare the key found. *)
Definition get (k : bytes) (l : list (bytes * V)) : option V :=
  match seek k l with
  | Some (k', v) => if Bytes.eqb k' k then Some v else None
  | None => None
  end.

(** Insert or replace, keeping key order. *)
Fixpoint put (k : bytes) (v : V) (l : list (bytes * V)) : list (bytes * V) :=
  match l with
  | [] => [(k, v)]
  | (k', v') :: l' =>
      match Bytes.compare k k' with
      | Lt => (k, v) :: (k', v') :: l'
      | Eq => (k, v) :: l'
      | Gt => (k', v') :: put k v l'
      end
  end.

(** Remove the entry stored under [k], if any. *)
Fixpoint del (k : bytes) (l : list (bytes * V)) : list (bytes * V) :=
  match l with
  | [] => []
  | (k', v) :: l' => if Bytes.eqb k' k then del k l' else (k', v) :: del k l'
  end.

(** [Cursor.First] and [Cursor.Last]. *)
Definition First (l : list (bytes * V)) : option (bytes * V) := head l.
Definition Last (l : list (bytes * V)) : option (bytes * V) := last l.

(** Keys strictly increase along a bucket. *)
Definition sorted (l : list (bytes * V)) : Prop :=
  StronglySorted Bytes.lt (keys l).

End Entries.

(** A ring: byte-string keys to byte-string values. *)
Abbreviation ring := (list (bytes * bytes)).

(** A direct child of the root bucket: a nested bucket, or a plain value
    (which the package never creates and reports as an error). *)
Inductive entry :=
| SubBucket (b : ring)
| Leaf (v : bytes).

Abbreviation root := (list (bytes * entry)).

(** The database as the package sees it: whether it was opened read-only,
    and the bucket named [c.bucketTimesIn], if there is one. *)
Record DB := { IsReadOnly : bool; top : option root }.

(** [Bucket.Bucket(name)]: nil unless [name] is the key of a nested
    bucket. *)
Definition Bucket (name : bytes) (r : root) : option ring :=
  match get name r with
  | Some (SubBucket b) => Some b
  | _ => None
  end.

Definition CreateBucket (name : bytes) (r : root) : outcome root :=
  match name with
  | [] => Err ErrBucketNameRequired
  | _ =>
      match get name r with
      | Some (SubBucket _) => Err ErrBucketExists
      | Some (Leaf _) => Err ErrIncompatibleValue
      | None => Ok (put name (SubBucket []) r)
      end
  end.

Definition DeleteBucket (name : bytes) (r : root) : outcome root :=
  match get name r with
  | None => Err ErrBucketNotFound
  | Some (Leaf _) => Err ErrIncompatibleValue
  | Some (SubBucket _) => Ok (del name r)
  end.

(** Writes [b] back as the nested bucket [name] (the effect, on the root,
    of mutating a bucket handle obtained with [Bucket]). *)
Definition store (name : bytes) (b : ring) (r : root) : root :=
  put name (SubBucket b) r.

Definition Put (k v : bytes) (b : ring) : outcome ring :=
  match k with
  | [] => Err ErrKeyRequired
  | _ =>
      if MaxKeySize <? Z.of_nat (length k) then Err ErrKeyTooLarge
      else if MaxValueSize <? Z.of_nat (length v) then Err ErrValueTooLarge
      else Ok (put k v b)
  end.

(** [Cursor.Delete] after a [Seek] that returned key [k]: removes the
    entry under the cursor; on a cursor that ran off the end ([None]) it
    removes nothing and returns no error. *)
Definition CursorDelete (k : option bytes) (b : ring) : ring :=
  match k with
  | Some k' => del k' b
  | None => b
  end.

(** [DB.View]: the function sees the current state. *)
Definition View {A} (db : DB) (f : option root -> outcome A) : outcome A :=
  f (top db).

(** [DB.Update]: refused on a read-only database; commits the state the
    function leaves when it returns nil, and rolls back otherwise. *)
Definition Update {A} (db : DB)
    (f : option root -> outcome (option root * A)) : outcome (DB * A) :=
  if IsReadOnly db then Err ErrDatabaseReadOnly
  else
    '(t, a) ← f (top db);
    Ok ({| IsReadOnly := false; top := t |}, a).

(** The shape the package gives the store (invariant I1) and bolt gives a
    bucket: children of the root are nested buckets with 8-byte names, and
    no bucket holds an empty key. *)
Definition wf_bucket (b : ring) : Prop :=
  sorted b /\ Forall (fun k => k <> []) (keys b).

Definition is_ring (e : bytes * entry) : Prop :=
  length e.1 = 8%nat /\ exists b, e.2 = SubBucket b /\ wf_bucket b.

Definition wf_root (r : root) : Prop :=
  sorted r /\ Forall is_ring r.

(** The same shape as a check that computes. *)
Fixpoint sortedb (ks : list bytes) : bool :=
  match ks with
  | [] => true
  | k :: ks' => forallb (Bytes.ltb k) ks' && sortedb ks'
  end.

Definition wf_bucketb (b : ring) : bool :=
  sortedb (keys b) && forallb (fun k => negb (Bytes.eqb k [])) (keys b).

Definition is_ringb (e : bytes * entry) : bool :=
  Nat.eqb (length e.1) 8
  && match e.2 with SubBucket b => wf_bucketb b | Leaf _ => false end.

Definition wf_rootb (r : root) : bool :=
  sortedb (keys r) && forallb is_ringb r.

End Bolt.

(** ** [container/heap] over [cursorHeap]

    [cursorHeap] and its methods [Len], [Less], [Swap], [Push], [Pop] are
    the package's; [heap.Init], [heap.Pop], [heap.Fix] and their helpers
    [up] and [down] are Go's standard library, written here loop by loop
    as the library has them, on the slice as a list. *)

Module Heap.

(** [stringCursor]: [cursor] is the bolt cursor of one ring, given by the
    keys its [Next] has still to return, in order; [head] is the key it is
    at. *)
Record stringCursor := { cursor : list bytes; head : bytes }.

Abbreviation cursorHeap := (list stringCursor).

(** The key at index [i] (indexes are in range wherever the heap
    functions use them; out of range Go would panic). *)
Definition headAt (c : cursorHeap) (i : nat) : bytes :=
  default [] (head <$> c !! i).

(** The methods of [cursorHeap]. *)
Definition Len (c : cursorHeap) : nat := length c.

Definition Less (c : cursorHeap) (i j : nat) : bool :=
  Bytes.ltb (headAt c i) (headAt c j).

Definition Swap (c : cursorHeap) (i j : nat) : cursorHeap :=
  match c !! i, c !! j with
  | Some a, Some b => <[i := b]> (<[j := a]> c)
  | _, _ => c
  end.

Definition Push (c : cursorHeap) (x : stringCursor) : cursorHeap := c ++ [x].

Definition Pop (c : cursorHeap) : cursorHeap * option stringCursor :=
  (take (length c - 1) c, last c).

(** [heap.down]: the loop, with the index it stops at.  The index grows
    at every round and stays below [n], so [n] rounds are enough. *)
Fixpoint downLoop (fuel : nat) (h : cursorHeap) (i n : nat)
    : cursorHeap * nat :=
  match fuel with
  | O => (h, i)
  | S fuel' =>
      let j1 := (2 * i + 1)%nat in
      if (n <=? j1)%nat then (h, i)
      else
        let j2 := (j1 + 1)%nat in
        let j := if (j2 <? n)%nat && Less h j2 j1 then j2 else j1 in
        if negb (Less h j i) then (h, i)
        else downLoop fuel' (Swap h i j) j n
  end.

Definition down (h : cursorHeap) (i0 n : nat) : cursorHeap * bool :=
  let '(h', i) := downLoop n h i0 n in (h', (i0 <? i)%nat).

(** [heap.up]; in Go [(j - 1) / 2] is 0 for [j = 0], as it is on [nat]. *)
Fixpoint upLoop (fuel : nat) (h : cursorHeap) (j : nat) : cursorHeap :=
  match fuel with
  | O => h
  | S fuel' =>
      let i := ((j - 1) / 2)%nat in
      if (i =? j)%nat || negb (Less h j i) then h
      else upLoop fuel' (Swap h i j) i
  end.

Definition up (h : cursorHeap) (j : nat) : cursorHeap := upLoop (S j) h j.

(** [heap.Init]: [down] at [n/2 - 1], ..., 0; [k] is one more than the
    index of the next round. *)
Fixpoint initLoop (k : nat) (h : cursorHeap) (n : nat) : cursorHeap :=
  match k with
  | O => h
  | S i => initLoop i (down h i n).1 n
  end.

Definition Init (h : cursorHeap) : cursorHeap :=
  initLoop (Len h / 2) h (Len h).

(** [heap.Pop] *)
Definition HeapPop (h : cursorHeap) : cursorHeap * option stringCursor :=
  let n := (Len h - 1)%nat in
  Pop (down (Swap h 0 n) 0 n).1.

(** [heap.Fix] *)
Definition Fix (h : cursorHeap) (i : nat) : cursorHeap :=
  let '(h', moved) := down h i (Len h) in
  if moved then h' else up h' i.

(** The keys a cursor has still to yield, and those of a whole heap. *)
Definition pending (c : stringCursor) : list bytes := head c :: cursor c.

Definition allPending (h : cursorHeap) : list bytes := h ≫= pending.

(** A cursor of a well-formed ring: its keys increase and none is
    empty. *)
Definition cursorOk (c : stringCursor) : Prop :=
  StronglySorted Bytes.lt (pending c) /\ Forall (fun k => k <> []) (pending c).

(** The heap order on the first [n] slots, for the parents from [lo] on:
    no child is below its parent. *)
Definition heapFrom (h : cursorHeap) (n lo : nat) : Prop :=
  forall p, (lo <= p)%nat ->
    ((2 * p + 1 < n)%nat -> Bytes.le (headAt h p) (headAt h (2 * p + 1)))
    /\ ((2 * p + 2 < n)%nat -> Bytes.le (headAt h p) (headAt h (2 * p + 2))).

(** The same with slot [i] possibly too large for its children: every
    other parent is in order, and the parent of [i] is not above the
    children of [i]. *)
Definition heapExcept (h : cursorHeap) (n lo i : nat) : Prop :=
  (forall p, (lo <= p)%nat -> p <> i ->
     ((2 * p + 1 < n)%nat -> Bytes.le (headAt h p) (headAt h (2 * p + 1)))
     /\ ((2 * p + 2 < n)%nat -> Bytes.le (headAt h p) (headAt h (2 * p + 2))))
  /\ (forall p, (lo <= p)%nat -> i = (2 * p + 1)%nat \/ i = (2 * p + 2)%nat ->
        ((2 * i + 1 < n)%nat -> Bytes.le (headAt h p) (headAt h (2 * i + 1)))
        /\ ((2 * i + 2 < n)%nat
            -> Bytes.le (headAt h p) (headAt h (2 * i + 2)))).

End Heap.

(** ** The package

    The functions of [boltcycle.go].  A function that runs a transaction
    is split into the transaction's body ([..._tx], on the root bucket the
    transaction sees) and the call of [Update] or [View] around it.  The
    statistics counters are left out, except for the two that
    [moveRecentReads] computes inside its transaction. *)

Module Boltcycle.

Import Bolt.

(** The configuration fields of [CycleDB]; the database and the channel
    are the state the functions below thread through. *)
Record CycleDB := {
  minNumOldBuckets : Z;
  maxBatchSize : Z;
  readMovementBacklog : Z
}.

(** The values [New] starts from, and the options that change them. *)
Definition defaults : CycleDB :=
  {| minNumOldBuckets := 2; maxBatchSize := 1000;
     readMovementBacklog := 10000 |}.

Definition CycleLen (m : Z) (c : CycleDB) : CycleDB :=
  {| minNumOldBuckets := m; maxBatchSize := maxBatchSize c;
     readMovementBacklog := readMovementBacklog c |}.

Definition ReadMovementBacklog (n : Z) (c : CycleDB) : CycleDB :=
  {| minNumOldBuckets := minNumOldBuckets c; maxBatchSize := maxBatchSize c;
     readMovementBacklog := n |}.

(** [KvPair] *)
Record KvPair := { Key : bytes; Value : bytes }.

(** [readToLocation]; the zero value has a nil key and a nil value. *)
Record readToLocation := {
  bucket : Z;
  key : bytes;
  value : option bytes;
  needsCopy : bool
}.

Definition zeroLocation : readToLocation :=
  {| bucket := 0; key := []; value := None; needsCopy := false |}.

(** The channel [readMovements]: what is buffered, oldest first, and
    whether [Close] has closed it.  A send on a full channel blocks until
    the promoter has made room; it never drops, so a send that returns has
    appended (the capacity [readMovementBacklog] only decides how long the
    sender waits). *)
Record chan := { buf : list readToLocation; closed : bool }.

(** [ch <- x]; a send on a closed channel panics. *)
Definition send (x : readToLocation) (ch : chan) : outcome chan :=
  if closed ch then Panic
  else Ok {| buf := buf ch ++ [x]; closed := false |}.

(** The options of the package ([DBConfiguration] values built by
    [CycleLen], [ReadMovementBacklog], [AsyncErrors], [BucketTimesIn]) and
    the configuration [New] ends up with.  None of them sets
    [maxBatchSize]. *)
Inductive DBConfiguration :=
| OptCycleLen (minNumOldBuckets : Z)
| OptReadMovementBacklog (readMovementBacklog : Z)
| OptAsyncErrors
| OptBucketTimesIn (bucketName : bytes).

Definition applyOption (c : CycleDB) (o : DBConfiguration) : CycleDB :=
  match o with
  | OptCycleLen n => CycleLen n c
  | OptReadMovementBacklog n => ReadMovementBacklog n c
  | OptAsyncErrors => c
  | OptBucketTimesIn _ => c
  end.

Definition configured (optionalParameters : list DBConfiguration) : CycleDB :=
  foldl applyOption defaults optionalParameters.

(** [VerifyBuckets]: the walk of [bucket.ForEach] over the children of
    the root. *)
Fixpoint verifyEach (cur : list (bytes * entry)) : outcome unit :=
  match cur with
  | [] => Ok tt
  | (k, v) :: cur' =>
      match v with
      | Leaf _ => Err errUnexpectedNonBucket
      | SubBucket _ =>
          if negb (Nat.eqb (length k) 8) then Err errUnexpectedBucketBytes
          else verifyEach cur'
      end
  end.

Definition VerifyBuckets (db : DB) : outcome unit :=
  View db (fun t =>
    match t with
    | None => Err errUnableToFindRootBucket
    | Some r => verifyEach r
    end).

(** [countBuckets]: one cursor step per child of the root. *)
Definition countBuckets (r : root) : Z := Z.of_nat (length r).

(** The trim loop of [CycleNodes].  [ks] is what is left of the cursor's
    walk over the children the root had when the loop started (the cursor
    reads the transaction's pages, which [DeleteBucket] does not touch). *)
Fixpoint trimLoop (ks : list bytes) (count minb : Z) (r : root)
    : outcome (root * Z) :=
  match ks with
  | [] => Ok (r, count)
  | k :: ks' =>
      if minb <? count then
        r' ← DeleteBucket k r;
        trimLoop ks' (count - 1) minb r'
      else Ok (r, count)
  end.

(** [nextKey]; [None] is the panic of [Uint64] on a slice shorter than 8
    bytes (the nil key of [cursor.Last] on an empty root included). *)
Definition nextKey (last : option bytes) : option bytes :=
  n ← Bytes.Uint64 (default [] last);
  Some (Bytes.PutUint64 (Bytes.u64 (n + 1))).

Definition CycleNodes_tx (c : CycleDB) (t : option root)
    : outcome (option root * unit) :=
  match t with
  | None => Err errUnableToFindRootBucket
  | Some r =>
      '(r1, _) ← trimLoop (keys r) (countBuckets r) (minNumOldBuckets c) r;
      match nextKey (fst <$> Last r1) with
      | None => Panic
      | Some nextBucketName =>
          r2 ← CreateBucket nextBucketName r1;
          Ok (Some r2, tt)
      end
  end.

Definition CycleNodes (c : CycleDB) (db : DB) : outcome DB :=
  fst <$> Update db (CycleNodes_tx c).

(** [init]: a writable database gets the root bucket and, if the root has
    no child, a first ring named by eight zero bytes. *)
Definition init_tx (t : option root) : outcome (option root * unit) :=
  let r := default [] t in
  match First r with
  | None => r' ← CreateBucket Bytes.zero8 r; Ok (Some r', tt)
  | Some _ => Ok (Some r, tt)
  end.

Definition init (db : DB) : outcome DB :=
  if IsReadOnly db then Ok db
  else fst <$> Update db init_tx.

(** *** The promoter's intake *)

(** What a call of [drainAllMovements] comes to on a given state of the
    channel: it waits (the channel is empty and open; a producer has to
    act first), returns nil, panics ([make] with a negative capacity), or
    returns a batch and leaves the rest in the channel. *)
Inductive drained :=
| DrainWaits
| DrainNil
| DrainPanics
| Drained (allMovements : list readToLocation) (ch : chan).

(** The loop [for len(allMovements) < maxBatchSize] with its non-blocking
    receive: [q] is what the channel holds.  On an empty channel the
    [select] returns at once, through [!ok] if the channel is closed and
    through [default] if it is open. *)
Fixpoint drainMore (q allMovements : list readToLocation) (maxBatchSize : Z)
    : list readToLocation * list readToLocation :=
  match q with
  | [] => (allMovements, [])
  | rm :: q' =>
      if Z.of_nat (length allMovements) <? maxBatchSize
      then drainMore q' (allMovements ++ [rm]) maxBatchSize
      else (allMovements, q)
  end.

Definition drainAllMovements (readMovements : chan) (maxBatchSize : Z)
    : drained :=
  if maxBatchSize <? 0 then DrainPanics
  else
    match buf readMovements with
    | [] => if closed readMovements then DrainNil else DrainWaits
    | rm :: q =>
        let '(allMovements, q') := drainMore q [rm] maxBatchSize in
        Drained allMovements {| buf := q'; closed := closed readMovements |}
    end.

(** *** VerifyCompressed *)

(** [createHeap]: one cursor per ring, placed on the ring's first key;
    empty rings are left out.  [bucket.Bucket(k)] is nil for a child that
    is not a bucket, and [Cursor] on it is a nil dereference. *)
Fixpoint createHeapLoop (cur : list (bytes * entry)) (r : root)
    (ch : Heap.cursorHeap) : outcome Heap.cursorHeap :=
  match cur with
  | [] => Ok ch
  | (k, _) :: cur' =>
      match Bucket k r with
      | None => Panic
      | Some b =>
          match Bolt.keys b with
          | [] => createHeapLoop cur' r ch
          | firstKey :: rest =>
              createHeapLoop cur' r
                (ch ++ [{| Heap.cursor := rest; Heap.head := firstKey |}])
          end
      end
  end.

Definition createHeap (r : root) : outcome Heap.cursorHeap :=
  createHeapLoop r r [].

(** The loop of [verifyHeap].  Every round takes one key off one cursor,
    so it ends; [None] would be a run cut short by [fuel]. *)
Fixpoint verifyLoop (fuel : nat) (top : bytes) (ch : Heap.cursorHeap)
    : option (outcome unit) :=
  match fuel with
  | O => None
  | S fuel' =>
      match ch with
      | [] => Some (Ok tt)
      | c0 :: _ =>
          let nextTop := Heap.head c0 in
          if negb (Bytes.eqb top []) && Bytes.leb nextTop top
          then Some (Err errOrderingWrong)
          else
            match Heap.cursor c0 with
            | [] => verifyLoop fuel' nextTop (Heap.HeapPop ch).1
            | headBytes :: rest =>
                verifyLoop fuel' nextTop
                  (Heap.Fix (<[0%nat := {| Heap.cursor := rest;
                                           Heap.head := headBytes |}]> ch) 0)
            end
      end
  end.

Definition verifyHeap (ch : Heap.cursorHeap) : option (outcome unit) :=
  verifyLoop (S (length (Heap.allPending ch))) [] (Heap.Init ch).

Definition VerifyCompressed (db : DB) : option (outcome unit) :=
  match top db with
  | None => Some (Err errUnableToFindRootBucket)
  | Some r =>
      match createHeap r with
      | Ok ch => verifyHeap ch
      | Err e => Some (Err e)
      | Panic => Some Panic
      end
  end.

(** Every key appears in at most one ring. *)
Definition compressed (r : root) : Prop :=
  forall k name1 b1 name2 b2,
    (name1, SubBucket b1) ∈ r -> (name2, SubBucket b2) ∈ r ->
    k ∈ Bolt.keys b1 -> k ∈ Bolt.keys b2 -> name1 = name2.

(** The keys of all rings, ring after ring. *)
Definition ringKeys (e : bytes * entry) : list bytes :=
  match e.2 with SubBucket b => Bolt.keys b | Leaf _ => [] end.

Definition allKeys (r : root) : list bytes := r ≫= ringKeys.

(** The cursor [createHeap] makes for a child of the root, if any. *)
Definition cursorOf (e : bytes * entry) : option Heap.stringCursor :=
  match ringKeys e with
  | [] => None
  | firstKey :: rest =>
      Some {| Heap.cursor := rest; Heap.head := firstKey |}
  end.

(** *** Read *)

(** The body of [for index, searchBytes := range indexesToFetch] for one
    entry of the map: on a hit the result slot is filled and the index is
    deleted from the map. *)
Definition lookIn (timeBucket : ring) (bucketAsUint : Z) (needsCopy : bool)
    (st : list readToLocation * gmap nat bytes) (ix : nat * bytes)
    : list readToLocation * gmap nat bytes :=
  let '(index, searchBytes) := ix in
  match seek searchBytes timeBucket with
  | None => st
  | Some (k, v) =>
      if Bytes.eqb k searchBytes then
        (<[index := {| bucket := bucketAsUint; key := searchBytes;
                       value := Some v; needsCopy := needsCopy |}]> st.1,
         delete index st.2)
      else st
  end.

(** The inner loop over one ring.  Go ranges over the map in an order of
    its choosing; [order] is the order taken (each entry the map had when
    the loop started is visited once, since the body deletes only the
    entry it is at). *)
Definition searchRing (timeBucket : ring) (bucketAsUint : Z)
    (needsCopy : bool) (order : list (nat * bytes))
    (st : list readToLocation * gmap nat bytes)
    : list readToLocation * gmap nat bytes :=
  foldl (lookIn timeBucket bucketAsUint needsCopy) st order.

(** The loop over the rings, [timeCursor.Last()] then [Prev()]; [cur] is
    what the cursor has still to visit, newest first. *)
Fixpoint searchRings (r : root) (cur : list (bytes * entry))
    (needsCopy : bool) (st : list readToLocation * gmap nat bytes)
    : outcome (list readToLocation) :=
  match cur with
  | [] => Ok st.1
  | (lastKey, _) :: cur' =>
      if Nat.ltb 0 (size st.2) then
        match Bucket lastKey r with
        | None => Err errUnexpectedNonBucket
        | Some timeBucket =>
            match Bytes.Uint64 lastKey with
            | None => Panic
            | Some bucketAsUint =>
                searchRings r cur' true
                  (searchRing timeBucket bucketAsUint needsCopy
                     (map_to_list st.2) st)
            end
        end
      else Ok st.1
  end.

Definition indexesToFetch (toread : list bytes) : gmap nat bytes :=
  list_to_map (imap (fun i b => (i, b)) toread).

Definition indexToLocation (db : DB) (toread : list bytes)
    : outcome (list readToLocation) :=
  View db (fun t =>
    match t with
    | None => Err errUnableToFindRootBucket
    | Some r =>
        searchRings r (reverse r) false
          (replicate (length toread) zeroLocation, indexesToFetch toread)
    end).

(** The sends of [Read], in result order. *)
Fixpoint sendAll (readLocations : list readToLocation) (ch : chan)
    : outcome chan :=
  match readLocations with
  | [] => Ok ch
  | readLocation :: rest =>
      if needsCopy readLocation then
        ch' ← send readLocation ch; sendAll rest ch'
      else sendAll rest ch
  end.

(** [Read]: the values, and the channel after the sends. *)
Definition Read (db : DB) (ch : chan) (toread : list bytes)
    : outcome (list (option bytes) * chan) :=
  readLocations ← indexToLocation db toread;
  ch' ← (if IsReadOnly db then Ok ch else sendAll readLocations ch);
  Ok (value <$> readLocations, ch').

(** The search as the spec words it: walk the rings newest first, stop at
    the first that holds the key; the flag is false only for the first
    ring walked. *)
Fixpoint locate (cur : list (bytes * entry)) (needsCopy : bool) (k : bytes)
    : option readToLocation :=
  match cur with
  | [] => None
  | (name, e) :: cur' =>
      match e with
      | SubBucket b =>
          match get k b with
          | Some v =>
              Some {| bucket := Bytes.be name; key := k; value := Some v;
                      needsCopy := needsCopy |}
          | None => locate cur' true k
          end
      | Leaf _ => locate cur' true k
      end
  end.

(** *** Write *)

Fixpoint putAll (towrite : list KvPair) (lastBucket : ring) : outcome ring :=
  match towrite with
  | [] => Ok lastBucket
  | p :: rest => b ← Put (Key p) (Value p) lastBucket; putAll rest b
  end.

Definition Write_tx (towrite : list KvPair) (t : option root)
    : outcome (option root * unit) :=
  match t with
  | None => Err errUnableToFindRootBucket
  | Some r =>
      match fst <$> Last r with
      | None => Err errNoLastBucket
      | Some lastBucketKey =>
          match Bucket lastBucketKey r with
          | None => Err errNoLastBucket
          | Some lastBucket =>
              b ← putAll towrite lastBucket;
              Ok (Some (store lastBucketKey b r), tt)
          end
      end
  end.

Definition Write (db : DB) (towrite : list KvPair) : outcome DB :=
  fst <$> Update db (Write_tx towrite).

(** A pair the store accepts: [Put] refuses an empty key and keys and
    values above its size limits. *)
Definition admissible (p : KvPair) : Prop :=
  Key p <> [] /\ Z.of_nat (length (Key p)) <= MaxKeySize
  /\ Z.of_nat (length (Value p)) <= MaxValueSize.

(** The batch applied to a ring, pair by pair in batch order. *)
Definition putsOf (towrite : list KvPair) (b : ring) : ring :=
  foldl (fun b p => put (Key p) (Value p) b) b towrite.

Definition pair (k v : string) : KvPair := {| Key := str k; Value := str v |}.

(** The value of the last pair of the batch whose key is [k]. *)
Definition lastValue (k : bytes) (towrite : list KvPair) : option bytes :=
  Value <$> last (filter (fun p => Key p = k) towrite).

(** *** Delete *)

(** [deleteKeys], from position [index] of the batch on; [cursor.Delete]
    cannot fail on a ring (it only refuses nested buckets). *)
Fixpoint deleteKeys (keys : list bytes) (index : nat) (b : ring)
    (ret : list bool) : ring * list bool :=
  match keys with
  | [] => (b, ret)
  | k0 :: keys' =>
      let k := fst <$> seek k0 b in
      if Bytes.Equal k k0 then
        deleteKeys keys' (S index) (CursorDelete k b) (<[index := true]> ret)
      else deleteKeys keys' (S index) b ret
  end.

(** [bucket.ForEach] over the children of the root; [cur] is what is left
    to visit.  [ret] is the caller's slice, which keeps what was written to
    it when the walk stops on an error. *)
Fixpoint deleteEach (cur : list (bytes * entry)) (keys : list bytes)
    (r : root) (ret : list bool) : list bool * outcome root :=
  match cur with
  | [] => (ret, Ok r)
  | (k, _) :: cur' =>
      match Bucket k r with
      | None => (ret, Err errUnexpectedNonBucket)
      | Some innerBucket =>
          let '(b, ret') := deleteKeys keys 0 innerBucket ret in
          deleteEach cur' keys (store k b r) ret'
      end
  end.

Definition Delete (db : DB) (keys : list bytes) : list bool * outcome DB :=
  let ret := replicate (length keys) false in
  if IsReadOnly db then (ret, Err ErrDatabaseReadOnly)
  else
    match top db with
    | None => (ret, Err errUnableToFindRootBucket)
    | Some r =>
        let '(ret', res) := deleteEach r keys r ret in
        (ret', r' ← res; Ok {| IsReadOnly := false; top := Some r' |})
    end.

(** A ring with the keys of a batch removed. *)
Definition delAll (keys : list bytes) (b : ring) : ring :=
  foldl (fun b k => del k b) b keys.

(** The root with the keys of a batch removed from every ring. *)
Definition stripEntry (keys : list bytes) (e : bytes * entry)
    : bytes * entry :=
  (e.1, match e.2 with
        | SubBucket b => SubBucket (delAll keys b)
        | Leaf v => Leaf v
        end).

Definition stripRoot (keys : list bytes) (r : root) : root :=
  stripEntry keys <$> r.

(** Key [k] is present in at least one ring of the root. *)
Definition present (r : root) (k : bytes) : Prop :=
  exists name b, (name, SubBucket b) ∈ r /\ k ∈ Bolt.keys b.

(** *** The promoter *)

(** [cleanupBucketsFunc], on the root the two bucket handles point into:
    [oldName] names the ring the cursor is on, [lastName] the newest ring
    (they may be the same ring). *)
Definition cleanupBucketsFunc (oldName lastName : bytes)
    (readLoc : readToLocation) (r : root) : outcome (root * bool) :=
  let old := default [] (Bucket oldName r) in
  let k := fst <$> seek (key readLoc) old in
  let wasDeleted := Bytes.Equal k (key readLoc) in
  let r1 := if wasDeleted then store oldName (CursorDelete k old) r else r in
  b ← Put (key readLoc) (default [] (value readLoc))
        (default [] (Bucket lastName r1));
  Ok (store lastName b r1, wasDeleted).

(** The loop over one group; the counters are [recopyCount] and
    [deletedCount]. *)
Fixpoint moveGroup (oldName lastName : bytes) (readLocs : list readToLocation)
    (st : root * (Z * Z)) : outcome (root * (Z * Z)) :=
  match readLocs with
  | [] => Ok st
  | rs :: rest =>
      let '(r, (recopyCount, deletedCount)) := st in
      '(r', wasDeleted) ← cleanupBucketsFunc oldName lastName rs r;
      moveGroup oldName lastName rest
        (r', (recopyCount + 1,
              if (wasDeleted : bool) then deletedCount + 1
              else deletedCount))
  end.

(** The loop over the groups, in the order Go's map iteration takes. *)
Fixpoint moveGroups (lastName : bytes)
    (groups : list (Z * list readToLocation)) (st : root * (Z * Z))
    : outcome (root * (Z * Z)) :=
  match groups with
  | [] => Ok st
  | (bucketID, readLocs) :: rest =>
      let bucketName := Bytes.PutUint64 bucketID in
      match Bucket bucketName st.1 with
      | Some _ =>
          st' ← moveGroup bucketName lastName readLocs st;
          moveGroups lastName rest st'
      | None => moveGroups lastName rest st
      end
  end.

Definition bucketIDToReadLocations (readLocations : list readToLocation)
    : gmap Z (list readToLocation) :=
  foldl (fun m r => <[bucket r := default [] (m !! bucket r) ++ [r]]> m)
    ∅ readLocations.

Definition moveRecentReads_tx (groups : list (Z * list readToLocation))
    (t : option root) : outcome (option root * (Z * Z)) :=
  match t with
  | None => Err errUnableToFindRootBucket
  | Some r =>
      match fst <$> Last r with
      | None => Err errNoLastBucket
      | Some lastBucketKey =>
          match Bucket lastBucketKey r with
          | None => Err errNoLastBucket
          | Some _ =>
              '(r', counts) ← moveGroups lastBucketKey groups (r, (0, 0));
              Ok (Some r', counts)
          end
      end
  end.

(** [moveRecentReads] when the map is ranged over in the order [groups];
    the result carries the two counters added to the statistics. *)
Definition moveRecentReadsIn (groups : list (Z * list readToLocation))
    (db : DB) : outcome (DB * (Z * Z)) :=
  Update db (moveRecentReads_tx groups).

Definition moveRecentReads (db : DB) (readLocations : list readToLocation)
    : outcome (DB * (Z * Z)) :=
  moveRecentReadsIn (map_to_list (bucketIDToReadLocations readLocations)) db.

(** [readMovementLoop], run until it returns, waits for a producer, or
    panics; [None] would be a run cut short by [fuel].  The result lists
    the batches handed to [moveRecentReads] and counts the transactions
    that failed ([TotalErrorsDuringRecopy]; publishing the error to
    [asyncErrors] is left out). *)
Inductive loopEnd := Returned | Waiting | Panicked.

Record loopRun := {
  delivered : list (list readToLocation);
  errorCount : Z;
  finalDB : DB;
  finalChan : chan;
  ending : option loopEnd
}.

Definition deliver (allMovements : list readToLocation) (failed : bool)
    (run : loopRun) : loopRun :=
  {| delivered := allMovements :: delivered run;
     errorCount := (if failed then 1 else 0) + errorCount run;
     finalDB := finalDB run; finalChan := finalChan run;
     ending := ending run |}.

Definition stop (db : DB) (ch : chan) (e : option loopEnd) : loopRun :=
  {| delivered := []; errorCount := 0; finalDB := db; finalChan := ch;
     ending := e |}.

Fixpoint readMovementLoopN (fuel : nat) (c : CycleDB) (db : DB) (ch : chan)
    : loopRun :=
  match fuel with
  | O => stop db ch None
  | S fuel' =>
      match drainAllMovements ch (maxBatchSize c) with
      | DrainNil => stop db ch (Some Returned)
      | DrainWaits => stop db ch (Some Waiting)
      | DrainPanics => stop db ch (Some Panicked)
      | Drained allMovements ch' =>
          match moveRecentReads db allMovements with
          | Ok (db', _) =>
              deliver allMovements false (readMovementLoopN fuel' c db' ch')
          | Err _ =>
              deliver allMovements true (readMovementLoopN fuel' c db ch')
          | Panic =>
              deliver allMovements false (stop db ch' (Some Panicked))
          end
      end
  end.

(** Every batch takes at least one request off the channel, so one more
    round than there are requests is enough. *)
Definition readMovementLoop (c : CycleDB) (db : DB) (ch : chan) : loopRun :=
  readMovementLoopN (S (length (buf ch))) c db ch.

(** The source ring of a group still exists in root [r]. *)
Definition sourceExists (r : root) (g : Z * list readToLocation) : Prop :=
  is_Some (Bucket (Bytes.PutUint64 g.1) r).

#[global] Instance sourceExists_dec r g : Decision (sourceExists r g).
Proof. unfold sourceExists. apply _. Defined.

(** A writable database no [CycleDB] has been opened on yet, and the
    state [init] leaves it in: one ring named 0. *)
Definition blank : DB := {| IsReadOnly := false; top := None |}.

Definition fresh : DB :=
  {| IsReadOnly := false; top := Some [(Bytes.zero8, SubBucket [])] |}.

(** What invariant I4 says of the roots before and after a rotation: the
    newest ring afterwards is empty and its name decodes to one more than
    the newest name before. *)
Definition rotated_newest (before after : root) : Prop :=
  exists prev e name n,
    Last before = Some (prev, e) /\ Bytes.Uint64 prev = Some n
    /\ Last after = Some (name, SubBucket [])
    /\ length name = 8%nat /\ Bytes.Uint64 name = Some (n + 1).

(** [n] calls of [CycleNodes] in a row, stopping at the first that does
    not return nil. *)
Fixpoint rotate_n (c : CycleDB) (n : nat) (db : DB) : outcome DB :=
  match n with
  | O => Ok db
  | S n' => db' ← CycleNodes c db; rotate_n c n' db'
  end.

Definition rings (db : DB) : root := default [] (top db).

(** A read-only store with key "k" in its older ring, and an open, empty
    channel. *)
Definition readOnlyDB : DB :=
  {| IsReadOnly := true;
     top := Some [(Bytes.zero8, SubBucket [kv "k" "v"]);
                  (Bytes.PutUint64 1, SubBucket [])] |}.

Definition emptyChan : chan := {| buf := []; closed := false |}.

(** A store that has rotated past ring 0 (rings 1 and 2 are left), and a
    promotion request for a key that was read from ring 0. *)
Definition rotatedDB : DB :=
  {| IsReadOnly := false;
     top := Some [(Bytes.PutUint64 1, SubBucket [kv "a" "1"]);
                  (Bytes.PutUint64 2, SubBucket [])] |}.

Definition staleRead : readToLocation :=
  {| bucket := 0; key := str "k"; value := Some (str "v");
     needsCopy := true |}.

(** A closed channel that still holds three requests. *)
Definition closingChan : chan :=
  {| buf := [staleRead; staleRead; staleRead]; closed := true |}.

(** A store with key "k" in two rings (scenario S7). *)
Definition duplicatedDB : DB :=
  {| IsReadOnly := false;
     top := Some [(Bytes.zero8, SubBucket [kv "a" "1"; kv "k" "v"]);
                  (Bytes.PutUint64 1, SubBucket [kv "k" "v"])] |}.

(** A store whose only ring carries the largest uint64 as its name. *)
Definition ff8 : bytes := [xff; xff; xff; xff; xff; xff; xff; xff].

Definition lastNameDB : DB :=
  {| IsReadOnly := false;
     top := Some [(ff8, SubBucket [(str "k", str "v")])] |}.

Definition ringCount (db : DB) : Z := countBuckets (rings db).

End Boltcycle.
(** *** Facts about the byte order *)

Section BytesFacts.

Lemma byte_to_Z_range b : 0 <= Bytes.byte_to_Z b < 256.
Proof.
  unfold Bytes.byte_to_Z. pose proof (Byte.to_N_bounded b). lia.
Qed.

Lemma byte_to_Z_inj a b : Bytes.byte_to_Z a = Bytes.byte_to_Z b -> a = b.
Proof.
  unfold Bytes.byte_to_Z. intros H.
  assert (Hn : Byte.to_N a = Byte.to_N b) by lia.
  pose proof (Byte.of_to_N a) as Ha. pose proof (Byte.of_to_N b) as Hb.
  rewrite Hn in Ha. congruence.
Qed.

Lemma byte_to_of_Z z : Bytes.byte_to_Z (Bytes.byte_of_Z z) = z mod 256.
Proof.
  unfold Bytes.byte_of_Z, Bytes.byte_to_Z.
  change 255 with (Z.ones 8). rewrite Z.land_ones by lia.
  change (2 ^ 8) with 256.
  pose proof (Z.mod_pos_bound z 256 ltac:(lia)) as Hr.
  destruct (Byte.of_N (Z.to_N (z mod 256))) as [b|] eqn:E.
  - simpl. apply Byte.to_of_N in E. lia.
  - exfalso. apply Byte.of_N_None_iff in E. lia.
Qed.

Lemma bytes_compare_refl a : Bytes.compare a a = Eq.
Proof.
  induction a as [|x a IH]; simpl; [done|]. by rewrite Z.compare_refl.
Qed.

Lemma bytes_compare_eq a b : Bytes.compare a b = Eq -> a = b.
Proof.
  revert b. induction a as [|x a IH]; intros [|y b]; simpl; try done.
  destruct (Z.compare_spec (Bytes.byte_to_Z x) (Bytes.byte_to_Z y)) as [E| |]; try done.
  intros H. f_equal; [by apply byte_to_Z_inj | by apply IH].
Qed.

Lemma bytes_compare_antisym a b : Bytes.compare b a = CompOpp (Bytes.compare a b).
Proof.
  revert b. induction a as [|x a IH]; intros [|y b]; simpl; try done.
  rewrite (Z.compare_antisym (Bytes.byte_to_Z x) (Bytes.byte_to_Z y)).
  destruct (Bytes.byte_to_Z x ?= Bytes.byte_to_Z y); simpl; auto.
Qed.

Lemma bytes_lt_trans a b c : Bytes.lt a b -> Bytes.lt b c -> Bytes.lt a c.
Proof.
  unfold Bytes.lt. revert b c.
  induction a as [|x a IH]; intros [|y b] [|z c]; simpl; try done.
  destruct (Z.compare_spec (Bytes.byte_to_Z x) (Bytes.byte_to_Z y));
    destruct (Z.compare_spec (Bytes.byte_to_Z y) (Bytes.byte_to_Z z)); try done;
    destruct (Z.compare_spec (Bytes.byte_to_Z x) (Bytes.byte_to_Z z)); try lia; eauto.
Qed.

Lemma bytes_lt_irrefl a : ~ Bytes.lt a a.
Proof. unfold Bytes.lt. by rewrite bytes_compare_refl. Qed.

Lemma bytes_lt_gt a b : Bytes.compare a b = Gt <-> Bytes.lt b a.
Proof.
  unfold Bytes.lt. rewrite (bytes_compare_antisym a b).
  destruct (Bytes.compare a b); simpl; split; congruence.
Qed.

Lemma bytes_le_lteq a b : Bytes.le a b <-> Bytes.lt a b \/ a = b.
Proof.
  unfold Bytes.le, Bytes.lt. split.
  - destruct (Bytes.compare a b) eqn:E; try auto using bytes_compare_eq. congruence.
  - intros [->| ->]; [done|]. by rewrite bytes_compare_refl.
Qed.

Lemma bytes_le_refl a : Bytes.le a a.
Proof. apply bytes_le_lteq. by right. Qed.

Lemma bytes_le_lt_trans a b c : Bytes.le a b -> Bytes.lt b c -> Bytes.lt a c.
Proof. rewrite bytes_le_lteq. intros [H| ->]; eauto using bytes_lt_trans. Qed.

Lemma bytes_lt_le_trans a b c : Bytes.lt a b -> Bytes.le b c -> Bytes.lt a c.
Proof. rewrite bytes_le_lteq. intros H [H'| <-]; eauto using bytes_lt_trans. Qed.

Lemma bytes_le_trans a b c : Bytes.le a b -> Bytes.le b c -> Bytes.le a c.
Proof.
  rewrite !bytes_le_lteq. intros [H| ->] [H'| <-]; eauto using bytes_lt_trans.
Qed.

Lemma bytes_lt_le_incl a b : Bytes.lt a b -> Bytes.le a b.
Proof. rewrite bytes_le_lteq. auto. Qed.

Lemma bytes_not_lt_le a b : ~ Bytes.lt a b <-> Bytes.le b a.
Proof.
  unfold Bytes.lt, Bytes.le. rewrite (bytes_compare_antisym a b).
  destruct (Bytes.compare a b); simpl; split; congruence.
Qed.

Lemma bytes_not_le_lt a b : ~ Bytes.le a b <-> Bytes.lt b a.
Proof.
  unfold Bytes.lt, Bytes.le. rewrite (bytes_compare_antisym a b).
  destruct (Bytes.compare a b); simpl; split; intros H; try congruence;
    try (exfalso; apply H; congruence).
Qed.

Lemma bytes_le_antisym a b : Bytes.le a b -> Bytes.le b a -> a = b.
Proof.
  rewrite !bytes_le_lteq. intros [H| ->] [H'|H']; try done.
  exfalso. eapply bytes_lt_irrefl, bytes_lt_trans; eauto.
Qed.

Lemma bytes_ltb_lt a b : Bytes.ltb a b = true <-> Bytes.lt a b.
Proof. unfold Bytes.ltb, Bytes.lt. destruct (Bytes.compare a b); split; congruence. Qed.

Lemma bytes_leb_le a b : Bytes.leb a b = true <-> Bytes.le a b.
Proof. unfold Bytes.leb, Bytes.le. destruct (Bytes.compare a b); split; congruence. Qed.

Lemma bytes_eqb_eq a b : Bytes.eqb a b = true <-> a = b.
Proof.
  unfold Bytes.eqb. split.
  - destruct (Bytes.compare a b) eqn:E; try done. intros _. by apply bytes_compare_eq.
  - intros ->. by rewrite bytes_compare_refl.
Qed.

Lemma bytes_eqb_refl a : Bytes.eqb a a = true.
Proof. by apply bytes_eqb_eq. Qed.

Lemma bytes_eqb_neq a b : Bytes.eqb a b = false <-> a <> b.
Proof. rewrite <- bytes_eqb_eq. destruct (Bytes.eqb a b); split; congruence. Qed.

Lemma bytes_nil_le a : Bytes.le [] a.
Proof. unfold Bytes.le. by destruct a. Qed.

Lemma bytes_nil_lt a : a <> [] -> Bytes.lt [] a.
Proof. unfold Bytes.lt. by destruct a. Qed.

End BytesFacts.

(** *** Facts about the big-endian encoding *)

Section Encoding.

Lemma lor_add_disjoint x y n :
  0 <= n -> 0 <= x < 2 ^ n -> Z.lor x (2 ^ n * y) = x + 2 ^ n * y.
Proof.
  intros Hn Hx.
  assert (Hland : Z.land x (2 ^ n * y) = 0).
  { apply Z.bits_inj'. intros i Hi. rewrite Z.land_spec, Z.bits_0.
    destruct (Z.lt_ge_cases i n) as [Hlt|Hge].
    - rewrite (Z.mul_comm (2 ^ n) y), Z.mul_pow2_bits_low by lia.
      apply andb_false_r.
    - rewrite <- (Z.mod_small x (2 ^ n)) by lia.
      rewrite Z.mod_pow2_bits_high by lia. done. }
  rewrite <- Z.lxor_lor by done. symmetry. by apply Z.add_nocarry_lxor.
Qed.

Lemma be_app l x : Bytes.be (l ++ [x]) = Bytes.be l * 256 + Bytes.byte_to_Z x.
Proof. unfold Bytes.be. by rewrite fold_left_app. Qed.

Lemma be_fold acc l :
  fold_left (fun a x => a * 256 + Bytes.byte_to_Z x) l acc
  = acc * 256 ^ Z.of_nat (length l) + Bytes.be l.
Proof.
  unfold Bytes.be. revert acc.
  induction l as [|x l IH]; intros acc; simpl fold_left.
  - simpl. lia.
  - rewrite IH, (IH (0 * 256 + _)).
    rewrite length_cons, Nat2Z.inj_succ, Z.pow_succ_r by lia. lia.
Qed.

Lemma be_cons x l :
  Bytes.be (x :: l) = Bytes.byte_to_Z x * 256 ^ Z.of_nat (length l) + Bytes.be l.
Proof. unfold Bytes.be at 1. simpl fold_left. by rewrite be_fold. Qed.

Lemma be_range l : 0 <= Bytes.be l < 256 ^ Z.of_nat (length l).
Proof.
  induction l as [|x l IH].
  - by compute.
  - rewrite be_cons, length_cons, Nat2Z.inj_succ, Z.pow_succ_r by lia.
    pose proof (byte_to_Z_range x). nia.
Qed.

(** On names of equal length, the key order of the store is the numeric
    order of the big-endian values. *)
Lemma be_compare a b :
  length a = length b -> Bytes.compare a b = (Bytes.be a ?= Bytes.be b).
Proof.
  revert b. induction a as [|x a IH]; intros [|y b] Hlen; simplify_eq/=.
  - done.
  - rewrite !be_cons, <- Hlen.
    pose proof (be_range a) as Ha. pose proof (be_range b) as Hb.
    rewrite <- Hlen in Hb.
    pose proof (byte_to_Z_range x). pose proof (byte_to_Z_range y).
    destruct (Z.compare_spec (Bytes.byte_to_Z x) (Bytes.byte_to_Z y)) as [E|L|G].
    + rewrite E, IH by done.
      destruct (Z.compare_spec (Bytes.be a) (Bytes.be b));
        symmetry; [apply Z.compare_eq_iff | apply Z.compare_lt_iff
                   | apply Z.compare_gt_iff]; lia.
    + symmetry. apply Z.compare_lt_iff. nia.
    + symmetry. apply Z.compare_gt_iff. nia.
Qed.

Lemma be_inj a b : length a = length b -> Bytes.be a = Bytes.be b -> a = b.
Proof.
  intros Hlen Hbe. apply bytes_compare_eq.
  rewrite be_compare by done. by apply Z.compare_eq_iff.
Qed.

Lemma lor_add_multiple x y n q :
  0 <= n -> 0 <= x < 2 ^ n -> y = 2 ^ n * q -> Z.lor x y = x + y.
Proof. intros Hn Hx ->. by apply lor_add_disjoint. Qed.

Lemma Uint64_be b : length b = 8%nat -> Bytes.Uint64 b = Some (Bytes.be b).
Proof.
  intros Hlen.
  do 8 (destruct b as [|? b]; [done|]). destruct b; [|done].
  unfold Bytes.Uint64, Bytes.be. simpl fold_left. f_equal.
  rewrite !Z.shiftl_mul_pow2 by lia.
  repeat match goal with
         | |- context [Bytes.byte_to_Z ?x] =>
             pose proof (byte_to_Z_range x);
             generalize dependent (Bytes.byte_to_Z x); intros
         end.
  rename z into z0, z0 into z1, z1 into z2, z2 into z3, z3 into z4,
    z4 into z5, z5 into z6, z6 into z7.
  rewrite (lor_add_multiple (z6 * 2 ^ 48) _ 56 z7) by lia.
  rewrite (lor_add_multiple (z5 * 2 ^ 40) _ 48 (z6 + 2 ^ 8 * z7)) by lia.
  rewrite (lor_add_multiple (z4 * 2 ^ 32) _ 40
             (z5 + 2 ^ 8 * (z6 + 2 ^ 8 * z7))) by lia.
  rewrite (lor_add_multiple (z3 * 2 ^ 24) _ 32
             (z4 + 2 ^ 8 * (z5 + 2 ^ 8 * (z6 + 2 ^ 8 * z7)))) by lia.
  rewrite (lor_add_multiple (z2 * 2 ^ 16) _ 24
             (z3 + 2 ^ 8 * (z4 + 2 ^ 8 * (z5 + 2 ^ 8 * (z6 + 2 ^ 8 * z7)))))
    by lia.
  rewrite (lor_add_multiple (z1 * 2 ^ 8) _ 16
             (z2 + 2 ^ 8 * (z3 + 2 ^ 8 * (z4 + 2 ^ 8 * (z5 + 2 ^ 8
                 * (z6 + 2 ^ 8 * z7)))))) by lia.
  rewrite (lor_add_multiple z0 _ 8
             (z1 + 2 ^ 8 * (z2 + 2 ^ 8 * (z3 + 2 ^ 8 * (z4 + 2 ^ 8
                 * (z5 + 2 ^ 8 * (z6 + 2 ^ 8 * z7))))))) by lia.
  lia.
Qed.

Lemma PutUint64_length v : length (Bytes.PutUint64 v) = 8%nat.
Proof. done. Qed.

Lemma be_PutUint64 v : 0 <= v < 2 ^ 64 -> Bytes.be (Bytes.PutUint64 v) = v.
Proof.
  intros Hv. unfold Bytes.PutUint64, Bytes.be. simpl fold_left.
  rewrite !byte_to_of_Z, !Z.shiftr_div_pow2 by lia.
  replace (v / 2 ^ 16) with (v / 2 ^ 8 / 256)
    by (by rewrite Z.div_div by lia).
  replace (v / 2 ^ 24) with (v / 2 ^ 8 / 256 / 256)
    by (by rewrite !Z.div_div by lia).
  replace (v / 2 ^ 32) with (v / 2 ^ 8 / 256 / 256 / 256)
    by (by rewrite !Z.div_div by lia).
  replace (v / 2 ^ 40) with (v / 2 ^ 8 / 256 / 256 / 256 / 256)
    by (by rewrite !Z.div_div by lia).
  replace (v / 2 ^ 48) with (v / 2 ^ 8 / 256 / 256 / 256 / 256 / 256)
    by (by rewrite !Z.div_div by lia).
  replace (v / 2 ^ 56) with (v / 2 ^ 8 / 256 / 256 / 256 / 256 / 256 / 256)
    by (by rewrite !Z.div_div by lia).
  change (2 ^ 8) with 256. change (2 ^ 64) with 18446744073709551616 in Hv.
  Z.div_mod_to_equations. lia.
Qed.

Lemma Uint64_PutUint64 v :
  0 <= v < 2 ^ 64 -> Bytes.Uint64 (Bytes.PutUint64 v) = Some v.
Proof.
  intros Hv. rewrite Uint64_be by done. f_equal. by apply be_PutUint64.
Qed.

Lemma PutUint64_be b : length b = 8%nat -> Bytes.PutUint64 (Bytes.be b) = b.
Proof.
  intros Hlen. apply be_inj; [by rewrite PutUint64_length|].
  apply be_PutUint64. pose proof (be_range b) as Hr. rewrite Hlen in Hr.
  exact Hr.
Qed.

Lemma Uint64_Some_length b n : Bytes.Uint64 b = Some n -> (8 <= length b)%nat.
Proof.
  do 8 (destruct b as [|? b]; [done|]). simpl. lia.
Qed.

Lemma Uint64_range b n :
  length b = 8%nat -> Bytes.Uint64 b = Some n -> 0 <= n < 2 ^ 64.
Proof.
  intros Hlen. rewrite Uint64_be by done. intros [= <-].
  pose proof (be_range b) as Hr. by rewrite Hlen in Hr.
Qed.

Lemma u64_range z : 0 <= Bytes.u64 z < 2 ^ 64.
Proof. unfold Bytes.u64. apply Z.mod_pos_bound. lia. Qed.

Lemma u64_small z : 0 <= z < 2 ^ 64 -> Bytes.u64 z = z.
Proof. unfold Bytes.u64. apply Z.mod_small. Qed.

End Encoding.

(** *** Facts about key-ordered buckets *)

Section EntriesFacts.
Context {V : Type}.
Implicit Types (l : list (bytes * V)) (k : bytes) (v : V).

Lemma sorted_cons_iff k v l :
  Bolt.sorted ((k, v) :: l)
  <-> Forall (Bytes.lt k) (Bolt.keys l) /\ Bolt.sorted l.
Proof. unfold Bolt.sorted, Bolt.keys. simpl. apply StronglySorted_cons. Qed.

Lemma sorted_nil : Bolt.sorted (@nil (bytes * V)).
Proof. constructor. Qed.

Lemma elem_keys k v l : (k, v) ∈ l -> k ∈ Bolt.keys l.
Proof. intros H. apply list_elem_of_fmap. by exists (k, v). Qed.

Lemma keys_elem k l : k ∈ Bolt.keys l -> exists v, (k, v) ∈ l.
Proof.
  intros H. apply list_elem_of_fmap in H as [[k' v] [-> H]]. by exists v.
Qed.

Lemma seek_elem k l k' v :
  Bolt.seek k l = Some (k', v) -> (k', v) ∈ l /\ Bytes.le k k'.
Proof.
  induction l as [|[k1 v1] l IH]; simpl; [done|].
  destruct (Bytes.leb k k1) eqn:E.
  - intros [= -> ->]. split; [left | by apply bytes_leb_le].
  - intros H. destruct (IH H). split; [by right | done].
Qed.

Lemma get_head k v l : Bolt.get k ((k, v) :: l) = Some v.
Proof.
  unfold Bolt.get. simpl.
  assert (Bytes.leb k k = true) as -> by apply bytes_leb_le, bytes_le_refl.
  by rewrite bytes_eqb_refl.
Qed.

Lemma get_below k k1 v1 l :
  Bytes.lt k k1 -> Forall (Bytes.lt k1) (Bolt.keys l) ->
  Bolt.get k ((k1, v1) :: l) = None.
Proof.
  intros Hlt _. unfold Bolt.get. simpl.
  assert (Bytes.leb k k1 = true) as ->
    by by apply bytes_leb_le, bytes_lt_le_incl.
  destruct (Bytes.eqb k1 k) eqn:E; [|done].
  apply bytes_eqb_eq in E as ->. by apply bytes_lt_irrefl in Hlt.
Qed.

Lemma get_above k k1 v1 l :
  Bytes.lt k1 k -> Bolt.get k ((k1, v1) :: l) = Bolt.get k l.
Proof.
  intros Hlt. unfold Bolt.get. simpl.
  destruct (Bytes.leb k k1) eqn:E; [|done].
  apply bytes_leb_le in E. exfalso.
  eapply bytes_lt_irrefl, bytes_lt_le_trans; eauto.
Qed.

Lemma lt_cases k k1 : Bytes.lt k k1 \/ k = k1 \/ Bytes.lt k1 k.
Proof.
  destruct (Bytes.compare k k1) eqn:E.
  - right; left. by apply bytes_compare_eq.
  - by left.
  - right; right. by apply bytes_lt_gt.
Qed.

Lemma get_Some k v l :
  Bolt.sorted l -> Bolt.get k l = Some v <-> (k, v) ∈ l.
Proof.
  induction l as [|[k1 v1] l IH]; intros Hs.
  - split; [done | by intros ?%elem_of_nil].
  - apply sorted_cons_iff in Hs as [Hall Hs]. specialize (IH Hs).
    rewrite elem_of_cons.
    destruct (lt_cases k k1) as [Hlt|[->|Hgt]].
    + rewrite get_below by done. split; [done|].
      intros [[= -> ->]|Hin]; [by apply bytes_lt_irrefl in Hlt|].
      apply elem_keys in Hin. rewrite Forall_forall in Hall.
      apply Hall in Hin. exfalso.
      eapply bytes_lt_irrefl, bytes_lt_trans; eauto.
    + rewrite get_head. split.
      * intros [= ->]. by left.
      * intros [[= ->]|Hin]; [done|].
        apply elem_keys in Hin. rewrite Forall_forall in Hall.
        apply Hall in Hin. by apply bytes_lt_irrefl in Hin.
    + rewrite get_above, IH by done. split; [by right|].
      intros [[= -> ->]|Hin]; [by apply bytes_lt_irrefl in Hgt | done].
Qed.

Lemma get_None k l :
  Bolt.sorted l -> Bolt.get k l = None <-> k ∉ Bolt.keys l.
Proof.
  intros Hs. split.
  - intros Hn [v Hin]%keys_elem. apply get_Some in Hin; [congruence | done].
  - intros Hnot. destruct (Bolt.get k l) as [v|] eqn:E; [|done].
    apply get_Some in E; [|done]. by apply elem_keys in E.
Qed.

Lemma put_keys k v l x :
  x ∈ Bolt.keys (Bolt.put k v l) <-> x = k \/ x ∈ Bolt.keys l.
Proof.
  unfold Bolt.keys. induction l as [|[k1 v1] l IH]; simpl.
  - rewrite list_elem_of_singleton, elem_of_nil. tauto.
  - destruct (Bytes.compare k k1) eqn:E; simpl; rewrite ?elem_of_cons.
    + apply bytes_compare_eq in E as ->. tauto.
    + simpl. tauto.
    + rewrite IH. tauto.
Qed.

Lemma put_sorted k v l : Bolt.sorted l -> Bolt.sorted (Bolt.put k v l).
Proof.
  induction l as [|[k1 v1] l IH]; intros Hs; simpl.
  - apply sorted_cons_iff. split; [constructor | apply sorted_nil].
  - pose proof Hs as [Hall Hs']%sorted_cons_iff.
    destruct (Bytes.compare k k1) eqn:E.
    + apply bytes_compare_eq in E as ->. by apply sorted_cons_iff.
    + apply sorted_cons_iff. split; [|done].
      unfold Bolt.keys. simpl. constructor; [done|].
      eapply Forall_impl; [exact Hall|]. intros x Hx.
      by eapply bytes_lt_trans.
    + apply sorted_cons_iff. split; [|by apply IH].
      apply Forall_forall. intros x [->|Hx]%put_keys.
      * by apply bytes_lt_gt.
      * rewrite Forall_forall in Hall. by apply Hall.
Qed.

Lemma put_elem k v l k' v' :
  Bolt.sorted l ->
  (k', v') ∈ Bolt.put k v l
  <-> (k' = k /\ v' = v) \/ (k' <> k /\ (k', v') ∈ l).
Proof.
  induction l as [|[k1 v1] l IH]; intros Hs; simpl.
  - rewrite list_elem_of_singleton, elem_of_nil. split.
    + intros [= -> ->]. by left.
    + intros [[-> ->]|[_ []]]. done.
  - apply sorted_cons_iff in Hs as [Hall Hs]. specialize (IH Hs).
    rewrite Forall_forall in Hall.
    destruct (Bytes.compare k k1) eqn:E.
    + apply bytes_compare_eq in E as ->. rewrite !elem_of_cons. split.
      * intros [[= -> ->]|Hin]; [by left|]. right. split; [|by right].
        intros ->. apply elem_keys, Hall in Hin.
        by apply bytes_lt_irrefl in Hin.
      * intros [[-> ->]|[Hne [[= -> ->]|Hin]]]; [by left | done | by right].
    + rewrite !elem_of_cons. split.
      * intros [[= -> ->]|[[= -> ->]|Hin]]; [by left | |].
        -- right. split; [|by left]. intros ->.
           by apply bytes_lt_irrefl in E.
        -- right. split; [|by right]. intros ->.
           apply elem_keys, Hall in Hin.
           eapply bytes_lt_irrefl, bytes_lt_trans; eauto.
      * intros [[-> ->]|[Hne [[= -> ->]|Hin]]];
          [by left | right; by left | right; by right].
    + rewrite !elem_of_cons, IH. apply bytes_lt_gt in E. split.
      * intros [[= -> ->]|[[-> ->]|[Hne Hin]]].
        -- right. split; [|by left]. intros ->.
           by apply bytes_lt_irrefl in E.
        -- by left.
        -- right. split; [done | by right].
      * intros [[-> ->]|[Hne [[= -> ->]|Hin]]].
        -- right. by left.
        -- by left.
        -- right. right. done.
Qed.

Lemma get_put k v l k' :
  Bolt.sorted l ->
  Bolt.get k' (Bolt.put k v l)
  = if decide (k' = k) then Some v else Bolt.get k' l.
Proof.
  intros Hs. pose proof (put_sorted k v l Hs) as Hs'.
  destruct (decide (k' = k)) as [->|Hne].
  - apply get_Some; [done|]. apply put_elem; [done|]. by left.
  - destruct (Bolt.get k' l) as [v'|] eqn:E.
    + apply get_Some; [done|]. apply put_elem; [done|]. right.
      split; [done|]. by apply get_Some in E.
    + apply get_None; [done|]. rewrite put_keys.
      intros [->|Hin]; [done|]. by apply get_None in E.
Qed.

Lemma del_elem k l k' v' :
  (k', v') ∈ Bolt.del k l <-> k' <> k /\ (k', v') ∈ l.
Proof.
  induction l as [|[k1 v1] l IH]; simpl.
  - rewrite elem_of_nil. tauto.
  - destruct (Bytes.eqb k1 k) eqn:E.
    + apply bytes_eqb_eq in E as ->. rewrite IH, elem_of_cons. split.
      * intros [? ?]. auto.
      * intros [Hne [[= -> ->]|Hin]]; done.
    + apply bytes_eqb_neq in E. rewrite !elem_of_cons, IH. split.
      * intros [[= -> ->]|[? ?]]; auto.
      * intros [Hne [[= -> ->]|Hin]]; auto.
Qed.

Lemma del_keys k l x : x ∈ Bolt.keys (Bolt.del k l) <-> x <> k /\ x ∈ Bolt.keys l.
Proof.
  split.
  - intros [v [Hne Hin]%del_elem]%keys_elem. split; [done|].
    by eapply elem_keys.
  - intros [Hne [v Hin]%keys_elem]. apply (elem_keys _ v).
    by apply del_elem.
Qed.

Lemma del_sorted k l : Bolt.sorted l -> Bolt.sorted (Bolt.del k l).
Proof.
  induction l as [|[k1 v1] l IH]; intros Hs; simpl; [done|].
  apply sorted_cons_iff in Hs as [Hall Hs].
  destruct (Bytes.eqb k1 k); [by apply IH|].
  apply sorted_cons_iff. split; [|by apply IH].
  apply Forall_forall. intros x [_ Hx]%del_keys.
  rewrite Forall_forall in Hall. by apply Hall.
Qed.

Lemma get_del k l k' :
  Bolt.sorted l ->
  Bolt.get k' (Bolt.del k l) = if decide (k' = k) then None else Bolt.get k' l.
Proof.
  intros Hs. pose proof (del_sorted k l Hs) as Hs'.
  destruct (decide (k' = k)) as [->|Hne].
  - apply get_None; [done|]. rewrite del_keys. tauto.
  - destruct (Bolt.get k' l) as [v'|] eqn:E.
    + apply get_Some; [done|]. apply del_elem. split; [done|].
      by apply get_Some in E.
    + apply get_None; [done|]. rewrite del_keys. intros [_ Hin].
      by apply get_None in E.
Qed.

Lemma del_absent k l : k ∉ Bolt.keys l -> Bolt.del k l = l.
Proof.
  unfold Bolt.keys. induction l as [|[k1 v1] l IH]; simpl; [done|].
  rewrite not_elem_of_cons. intros [Hne Hnot].
  assert (Bytes.eqb k1 k = false) as -> by by apply bytes_eqb_neq.
  by rewrite IH.
Qed.

Lemma del_head k v l :
  Bolt.sorted ((k, v) :: l) -> Bolt.del k ((k, v) :: l) = l.
Proof.
  intros [Hall Hs]%sorted_cons_iff. simpl. rewrite bytes_eqb_refl.
  apply del_absent. intros Hin. rewrite Forall_forall in Hall.
  apply Hall in Hin. by apply bytes_lt_irrefl in Hin.
Qed.

Lemma put_above k v l :
  Forall (fun k' => Bytes.lt k' k) (Bolt.keys l) ->
  Bolt.put k v l = l ++ [(k, v)].
Proof.
  unfold Bolt.keys. induction l as [|[k1 v1] l IH]; simpl; [done|].
  intros [Hlt Hall]%Forall_cons.
  apply bytes_lt_gt in Hlt. simpl in Hlt. rewrite Hlt. by rewrite IH.
Qed.

Lemma put_length_fresh k v l :
  k ∉ Bolt.keys l -> length (Bolt.put k v l) = S (length l).
Proof.
  unfold Bolt.keys. induction l as [|[k1 v1] l IH]; simpl; [done|].
  rewrite not_elem_of_cons. intros [Hne Hnot].
  destruct (Bytes.compare k k1) eqn:E; simpl.
  - by apply bytes_compare_eq in E.
  - done.
  - by rewrite IH.
Qed.

(** Two key-ordered lists with the same entries are the same list. *)
Lemma sorted_ext l1 l2 :
  Bolt.sorted l1 -> Bolt.sorted l2 ->
  (forall k v, (k, v) ∈ l1 <-> (k, v) ∈ l2) -> l1 = l2.
Proof.
  revert l2. induction l1 as [|[k1 v1] l1 IH]; intros [|[k2 v2] l2] H1 H2 Heq.
  - done.
  - exfalso. eapply elem_of_nil, Heq. left.
  - exfalso. eapply elem_of_nil, Heq. left.
  - apply sorted_cons_iff in H1 as [A1 H1].
    apply sorted_cons_iff in H2 as [A2 H2].
    rewrite Forall_forall in A1. rewrite Forall_forall in A2.
    assert (Hk : k1 = k2).
    { pose proof (proj1 (Heq k1 v1) ltac:(left)) as Ha.
      pose proof (proj2 (Heq k2 v2) ltac:(left)) as Hb.
      apply elem_of_cons in Ha as [[= -> ->]|Ha]; [done|].
      apply elem_of_cons in Hb as [[= -> ->]|Hb]; [done|].
      apply elem_keys, A2 in Ha. apply elem_keys, A1 in Hb.
      exfalso. eapply bytes_lt_irrefl, bytes_lt_trans; eauto. }
    subst k2.
    assert (Hv : v1 = v2).
    { pose proof (proj1 (Heq k1 v1) ltac:(left)) as Ha.
      apply elem_of_cons in Ha as [[= ->]|Ha]; [done|].
      apply elem_keys, A2 in Ha. by apply bytes_lt_irrefl in Ha. }
    subst v2. f_equal. apply IH; [done..|].
    intros k v. split; intros Hin.
    + pose proof (proj1 (Heq k v) ltac:(by right)) as Ha.
      apply elem_of_cons in Ha as [[= -> ->]|Ha]; [|done].
      apply elem_keys, A1 in Hin. by apply bytes_lt_irrefl in Hin.
    + pose proof (proj2 (Heq k v) ltac:(by right)) as Ha.
      apply elem_of_cons in Ha as [[= -> ->]|Ha]; [|done].
      apply elem_keys, A2 in Hin. by apply bytes_lt_irrefl in Hin.
Qed.

End EntriesFacts.

Lemma sortedb_sound ks : Bolt.sortedb ks = true -> StronglySorted Bytes.lt ks.
Proof.
  induction ks as [|k ks IH]; simpl; [constructor|].
  intros [Hall Hs]%andb_true_iff. constructor; [by apply IH|].
  apply Forall_forall. intros x Hx. apply bytes_ltb_lt.
  rewrite forallb_forall in Hall. by apply Hall, list_elem_of_In.
Qed.

Lemma wf_bucketb_sound b : Bolt.wf_bucketb b = true -> Bolt.wf_bucket b.
Proof.
  intros [Hs Hall]%andb_true_iff. split; [by apply sortedb_sound|].
  apply Forall_forall. intros x Hx Hnil.
  rewrite forallb_forall in Hall. apply list_elem_of_In, Hall in Hx.
  subst x. done.
Qed.

Lemma wf_rootb_sound r : Bolt.wf_rootb r = true -> Bolt.wf_root r.
Proof.
  intros [Hs Hall]%andb_true_iff. split; [by apply sortedb_sound|].
  apply Forall_forall. intros [k e] Hx.
  rewrite forallb_forall in Hall. apply list_elem_of_In, Hall in Hx.
  apply andb_true_iff in Hx as [Hlen He]. split.
  - by apply Nat.eqb_eq.
  - simpl in He. destruct e as [b|v]; [|done]. exists b.
    split; [done | by apply wf_bucketb_sound].
Qed.

(** *** Rotation *)

Section Rotation.
Import Bolt Boltcycle.
Implicit Types (r : root) (c : CycleDB) (db : DB).

Lemma wf_root_nil : wf_root [].
Proof. split; [apply sorted_nil | constructor]. Qed.

Lemma wf_root_cons_inv x r : wf_root (x :: r) -> is_ring x /\ wf_root r.
Proof.
  destruct x as [k e]. intros [[Hall Hs]%sorted_cons_iff [Hx Hr]%Forall_cons].
  split; [done | by split].
Qed.

Lemma wf_root_drop n r : wf_root r -> wf_root (drop n r).
Proof.
  revert r. induction n as [|n IH]; intros [|x r] Hwf; simpl; try done.
  apply IH. by apply wf_root_cons_inv in Hwf as [_ ?].
Qed.

Lemma wf_bucket_nil : wf_bucket [].
Proof. split; [apply sorted_nil | constructor]. Qed.

Lemma wf_root_put name b r :
  wf_root r -> length name = 8%nat -> wf_bucket b ->
  wf_root (put name (SubBucket b) r).
Proof.
  intros [Hs Hall] Hlen Hb. split; [by apply put_sorted|].
  apply Forall_forall. intros [k e] Hin.
  apply put_elem in Hin as [[-> ->]|[_ Hin]]; [| |done].
  - split; [done|]. by exists b.
  - rewrite Forall_forall in Hall. by apply Hall.
Qed.

Lemma wf_root_get r name e :
  wf_root r -> get name r = Some e ->
  length name = 8%nat /\ exists b, e = SubBucket b /\ wf_bucket b.
Proof.
  intros [Hs Hall] Hget. apply get_Some in Hget; [|done].
  rewrite Forall_forall in Hall. by apply Hall in Hget.
Qed.

Lemma wf_root_last r name e :
  wf_root r -> Last r = Some (name, e) ->
  length name = 8%nat /\ exists b, e = SubBucket b /\ wf_bucket b.
Proof.
  intros [Hs Hall] Hlast. apply last_Some_elem_of in Hlast.
  rewrite Forall_forall in Hall. by apply Hall in Hlast.
Qed.

(** On a well-formed root the trim loop drops a prefix: the oldest rings,
    one per unit by which the count exceeds the minimum. *)
Lemma trimLoop_wf r count minb :
  wf_root r ->
  let n := Z.to_nat (Z.min (Z.of_nat (length r)) (count - minb)) in
  trimLoop (keys r) count minb r = Ok (drop n r, count - Z.of_nat n).
Proof.
  revert count. induction r as [|[k e] r IH]; intros count Hwf n.
  - assert (n = 0%nat) as -> by (subst n; simpl; lia).
    simpl. do 2 f_equal. lia.
  - simpl trimLoop. destruct (minb <? count) eqn:E.
    + apply Z.ltb_lt in E.
      pose proof Hwf as [[_ (b & Hb & _)] Hwf']%wf_root_cons_inv.
      simpl in Hb. subst e. unfold DeleteBucket. rewrite get_head.
      rewrite del_head by apply Hwf. simpl.
      rewrite (IH (count - 1) Hwf').
      assert (Hn : n = S (Z.to_nat (Z.min (Z.of_nat (length r))
                                           (count - 1 - minb)))).
      { subst n. rewrite length_cons. lia. }
      rewrite Hn. simpl drop. do 2 f_equal. lia.
    + apply Z.ltb_ge in E.
      assert (n = 0%nat) as -> by (subst n; lia).
      simpl. do 2 f_equal. lia.
Qed.

(** How many rings the trim loop leaves. *)
Lemma trimLoop_length r minb :
  wf_root r ->
  exists r1 count1,
    trimLoop (keys r) (countBuckets r) minb r = Ok (r1, count1)
    /\ wf_root r1
    /\ (exists n, r1 = drop n r)
    /\ Z.of_nat (length r1) = Z.min (countBuckets r) (Z.max 0 minb).
Proof.
  intros Hwf. eexists _, _. split; [by apply trimLoop_wf|].
  split; [by apply wf_root_drop|]. split; [by eexists|].
  rewrite length_drop. unfold countBuckets. lia.
Qed.

Lemma last_drop_lt {A} (l : list A) n :
  (n < length l)%nat -> last (drop n l) = last l.
Proof.
  intros Hn. rewrite <- (take_drop n l) at 2. rewrite last_app.
  destruct (last (drop n l)) eqn:E; [done|].
  apply last_None in E. apply (f_equal length) in E.
  rewrite length_drop in E. simpl in E. lia.
Qed.

Lemma nextKey_ring name :
  length name = 8%nat ->
  nextKey (Some name) = Some (Bytes.PutUint64 (Bytes.u64 (Bytes.be name + 1))).
Proof. intros Hlen. unfold nextKey. simpl. by rewrite Uint64_be. Qed.

Lemma nextKey_None last : nextKey last = None <-> (length (default [] last) < 8)%nat.
Proof.
  unfold nextKey. destruct (Bytes.Uint64 (default [] last)) as [n|] eqn:E; simpl.
  - apply Uint64_Some_length in E. split; [done | lia].
  - split; [intros _ | done].
    destruct (default [] last) as [|? l]; [simpl; lia|].
    do 7 (destruct l as [|? l]; [simpl; lia|]). done.
Qed.

Lemma sorted_last_max {V} (l : list (bytes * V)) k v :
  sorted l -> Last l = Some (k, v) -> Forall (fun k' => Bytes.le k' k) (keys l).
Proof.
  intros Hs [l' ->]%last_Some. unfold sorted, keys in *.
  rewrite fmap_app in *. simpl in *.
  apply Forall_app. split.
  - apply Forall_forall. intros x Hx. apply bytes_lt_le_incl.
    eapply StronglySorted_app_1_elem_of; [exact Hs | exact Hx | left].
  - constructor; [apply bytes_le_refl | constructor].
Qed.

Lemma name_lt_succ name :
  length name = 8%nat -> Bytes.be name + 1 < 2 ^ 64 ->
  Bytes.lt name (Bytes.PutUint64 (Bytes.be name + 1)).
Proof.
  intros Hlen Hn. unfold Bytes.lt. rewrite be_compare by done.
  pose proof (be_range name). rewrite be_PutUint64 by lia.
  apply Z.compare_lt_iff. lia.
Qed.

(** Creating a ring whose name is above every name in the root appends
    an empty ring. *)
Lemma CreateBucket_above r name newest e :
  sorted r -> Last r = Some (newest, e) -> Bytes.lt newest name ->
  CreateBucket name r = Ok (r ++ [(name, SubBucket [])]).
Proof.
  intros Hs Hlast Hlt.
  pose proof (sorted_last_max r newest e Hs Hlast) as Hmax.
  assert (Habove : Forall (fun k' => Bytes.lt k' name) (keys r)).
  { eapply Forall_impl; [exact Hmax|]. intros x Hx. simpl in Hx.
    eapply bytes_le_lt_trans; eauto. }
  unfold CreateBucket. destruct name as [|x name].
  { by destruct newest. }
  assert (get (x :: name) r = None) as ->.
  { apply get_None; [done|]. intros Hin. rewrite Forall_forall in Habove.
    apply Habove in Hin. by apply bytes_lt_irrefl in Hin. }
  by rewrite put_above.
Qed.

Lemma CreateBucket_no_panic name r : CreateBucket name r <> Panic.
Proof.
  unfold CreateBucket. destruct name; [done|].
  by destruct (get _ r) as [[?|?]|].
Qed.

(** One rotation of a well-formed, non-empty root whose newest name is
    not the largest uint64. *)
Lemma CycleNodes_tx_wf c r name e :
  wf_root r -> Last r = Some (name, e) -> 1 <= minNumOldBuckets c ->
  Bytes.be name + 1 < 2 ^ 64 ->
  let n := Z.to_nat (countBuckets r - minNumOldBuckets c) in
  CycleNodes_tx c (Some r)
  = Ok (Some (drop n r ++ [(Bytes.PutUint64 (Bytes.be name + 1), SubBucket [])]),
        tt).
Proof.
  intros Hwf Hlast Hmin Hn n. unfold CycleNodes_tx.
  rewrite trimLoop_wf by done. simpl.
  assert (Hlen : (0 < length r)%nat).
  { destruct r; [done | simpl; lia]. }
  replace (Z.to_nat (Z.min (Z.of_nat (length r))
                       (countBuckets r - minNumOldBuckets c))) with n
    by (unfold countBuckets in *; lia).
  assert (Hlt : (n < length r)%nat) by (unfold countBuckets in *; lia).
  unfold Last in *. rewrite (last_drop_lt r n Hlt), Hlast.
  change (fst <$> Some (name, e)) with (Some name).
  destruct (wf_root_last r name e Hwf Hlast) as [Hname _].
  rewrite (nextKey_ring name Hname).
  pose proof (be_range name).
  rewrite u64_small by lia.
  erewrite CreateBucket_above; [done | | | by apply name_lt_succ].
  - by apply wf_root_drop.
  - unfold Last. rewrite last_drop_lt by done. exact Hlast.
Qed.

(** One successful rotation, with no assumption on the newest name: the
    count is taken first, the root is trimmed down to the minimum, and one
    ring is added. *)
Lemma CycleNodes_step c db db' :
  wf_root (rings db) -> rings db <> [] -> 1 <= minNumOldBuckets c ->
  CycleNodes c db = Ok db' ->
  wf_root (rings db') /\ rings db' <> []
  /\ ringCount db' = Z.min (ringCount db) (minNumOldBuckets c) + 1.
Proof.
  intros Hwf Hne Hmin. unfold CycleNodes, Update, rings, ringCount in *.
  destruct db as [ro [r|]]; simpl in *; [|done].
  destruct ro; [done|]. unfold CycleNodes_tx.
  destruct (trimLoop_length r (minNumOldBuckets c) Hwf)
    as (r1 & count1 & -> & Hwf1 & _ & Hlen1).
  simpl.
  assert (Hr1 : r1 <> []).
  { intros ->. destruct r; [done|]. unfold countBuckets in Hlen1.
    simpl in Hlen1. lia. }
  destruct (last r1) as [[name e]|] eqn:Hlast; [|by apply last_None in Hlast].
  destruct (wf_root_last r1 name e Hwf1 Hlast) as [Hname _].
  unfold Last. rewrite Hlast.
  change (fst <$> Some (name, e)) with (Some name).
  rewrite (nextKey_ring name Hname).
  set (next := Bytes.PutUint64 _).
  assert (Hnext : length next = 8%nat) by done.
  assert (Hcreate : forall r2, CreateBucket next r1 = Ok r2 ->
            r2 = put next (SubBucket []) r1 /\ get next r1 = None).
  { intros r2. unfold CreateBucket. destruct next; [done|].
    destruct (get _ r1) as [[?|?]|]; try done. by intros [= <-]. }
  clearbody next.
  destruct (CreateBucket next r1) as [r2| |] eqn:Hcr; simpl; try done.
  destruct (Hcreate r2 eq_refl) as [-> Hget].
  intros [= <-]. simpl. split; [|split].
  - apply wf_root_put; [done | done | apply wf_bucket_nil].
  - intros Hnil. apply (f_equal length) in Hnil.
    rewrite put_length_fresh in Hnil; [done|].
    apply get_None; [apply Hwf1 | done].
  - unfold rings, countBuckets in *. simpl. rewrite put_length_fresh.
    + lia.
    + apply get_None; [apply Hwf1 | done].
Qed.

End Rotation.

(** *** Claims about rotation *)

Section RotationClaims.
Import Bolt Boltcycle.

(** [VerifyBuckets] accepts exactly the roots whose children are all
    nested buckets with 8-byte names, the shape [wf_root] asks for. *)
Lemma VerifyBuckets_shape db r :
  top db = Some r ->
  VerifyBuckets db = Ok tt
  <-> Forall (fun e => length e.1 = 8%nat /\ exists b, e.2 = SubBucket b) r.
Proof.
  intros Htop. unfold VerifyBuckets, View. rewrite Htop. clear Htop.
  induction r as [|[k [b|v]] r' IH]; simpl.
  - split; [constructor | done].
  - destruct (Nat.eqb_spec (length k) 8) as [Hlen|Hlen]; simpl.
    + rewrite IH. split.
      * intros Hall. constructor; [|done]. split; [done | by exists b].
      * by intros [_ ?]%Forall_cons.
    + split; [done|]. by intros [[? _] _]%Forall_cons.
  - split; [done|]. by intros [[_ [? ?]] _]%Forall_cons.
Qed.

Lemma init_blank : init blank = Ok fresh.
Proof. reflexivity. Qed.

Lemma fresh_wf : wf_root (rings fresh).
Proof. by apply wf_rootb_sound. Qed.

Lemma rotate_n_count c n db db' :
  wf_root (rings db) -> rings db <> [] -> 1 <= minNumOldBuckets c ->
  ringCount db <= minNumOldBuckets c + 1 ->
  rotate_n c n db = Ok db' ->
  ringCount db' = Z.min (ringCount db + Z.of_nat n) (minNumOldBuckets c + 1).
Proof.
  intros Hwf Hne Hmin. revert db Hwf Hne.
  induction n as [|n IH]; intros db Hwf Hne Hle; simpl.
  - intros [= <-]. lia.
  - destruct (CycleNodes c db) as [db1| |] eqn:Hstep; simpl; try done.
    destruct (CycleNodes_step c db db1 Hwf Hne Hmin Hstep)
      as (Hwf1 & Hne1 & Hcount).
    intros Hrest. rewrite (IH db1 Hwf1 Hne1 ltac:(lia) Hrest). lia.
Qed.

Lemma CycleNodes_wf c db r name e :
  IsReadOnly db = false -> top db = Some r -> wf_root r ->
  Last r = Some (name, e) -> 1 <= minNumOldBuckets c ->
  Bytes.be name + 1 < 2 ^ 64 ->
  let n := Z.to_nat (countBuckets r - minNumOldBuckets c) in
  let next := Bytes.PutUint64 (Bytes.be name + 1) in
  CycleNodes c db
  = Ok {| IsReadOnly := false;
          top := Some (drop n r ++ [(next, SubBucket [])]) |}.
Proof.
  intros Hro Htop Hwf Hlast Hmin Hn n next.
  unfold CycleNodes, Update. rewrite Hro, Htop.
  by rewrite (CycleNodes_tx_wf c r name e).
Qed.

Lemma rotate_n_succeeds c n db r name e :
  IsReadOnly db = false -> top db = Some r -> wf_root r ->
  Last r = Some (name, e) -> 1 <= minNumOldBuckets c ->
  Bytes.be name + Z.of_nat n < 2 ^ 64 ->
  exists db', rotate_n c n db = Ok db'.
Proof.
  intros Hro Htop Hwf Hlast Hmin. revert db r name e Hro Htop Hwf Hlast.
  induction n as [|n IH]; intros db r name e Hro Htop Hwf Hlast Hn; simpl.
  - by eexists.
  - pose proof (CycleNodes_wf c db r name e Hro Htop Hwf Hlast Hmin
                  ltac:(lia)) as Hstep.
    simpl in Hstep. rewrite Hstep. simpl.
    assert (Hr : rings db = r) by (unfold rings; by rewrite Htop).
    assert (Hne : rings db <> []).
    { rewrite Hr. intros ->. done. }
    destruct (CycleNodes_step c db _ ltac:(by rewrite Hr) Hne Hmin Hstep)
      as (Hwf1 & _ & _).
    eapply (IH _ _ (Bytes.PutUint64 (Bytes.be name + 1))); simpl; try done.
    + apply last_snoc.
    + pose proof (be_range name). rewrite be_PutUint64; lia.
Qed.

(** C3 as stated fails: with [min_rings = 3], one rotation of a fresh
    cache leaves 2 rings, which is neither 3 nor 4. *)
Lemma rotate_ring_count_short :
  let c := CycleLen 3 defaults in
  exists db',
    rotate_n c 1 fresh = Ok db' /\ ringCount db' = 2
    /\ ~ (ringCount db' = minNumOldBuckets c
          \/ ringCount db' = minNumOldBuckets c + 1).
Proof.
  eexists. split; [reflexivity|]. split; [reflexivity|].
  vm_compute. intros [H|H]; discriminate H.
Qed.

(** C3 (amended): from a fresh cache (one ring named 0) and with
    [min_rings >= 1], [n] rotations in a row succeed (as long as the ring
    names do not run out of uint64) and leave [min (n + 1) (min_rings + 1)]
    rings; the count therefore lies in [{min_rings, min_rings + 1}] once
    [n >= min_rings - 1], and is 3 after 5 rotations with [min_rings = 2]. *)
Theorem rotate_ring_count c n :
  1 <= minNumOldBuckets c ->
  (Z.of_nat n < 2 ^ 64 -> exists db', rotate_n c n fresh = Ok db')
  /\ forall db', rotate_n c n fresh = Ok db' ->
       ringCount db' = Z.min (Z.of_nat n + 1) (minNumOldBuckets c + 1)
       /\ (minNumOldBuckets c - 1 <= Z.of_nat n ->
           ringCount db' = minNumOldBuckets c
           \/ ringCount db' = minNumOldBuckets c + 1)
       /\ (minNumOldBuckets c = 2 -> n = 5%nat -> ringCount db' = 3).
Proof.
  intros Hmin. split.
  - intros Hn.
    eapply (rotate_n_succeeds c n fresh _ Bytes.zero8); try done;
      first [apply fresh_wf | change (Bytes.be Bytes.zero8) with 0; lia].
  - intros db' Hrot.
    pose proof (rotate_n_count c n fresh db' fresh_wf ltac:(done) Hmin
                  ltac:(change (ringCount fresh) with 1; lia) Hrot) as Hc.
    change (ringCount fresh) with 1 in Hc. lia.
Qed.

Lemma rotate_ring_count_witness :
  1 <= minNumOldBuckets defaults
  /\ exists db', rotate_n defaults 5 fresh = Ok db' /\ ringCount db' = 3.
Proof.
  split; [done|].
  destruct (rotate_ring_count defaults 5 ltac:(done)) as [Hex Hcount].
  destruct (Hex ltac:(done)) as [db' Hdb']. exists db'. split; [done|].
  by apply (Hcount db' Hdb').
Defined.

(** C4 as stated fails on a store whose newest ring is named
    [0xffffffffffffffff]: the uint64 successor wraps to 0, the rotation
    succeeds, and the ring it creates is the oldest one; the newest ring is
    still the old one, with its entries. *)
Lemma CycleNodes_newest_wraps :
  wf_root (rings lastNameDB) /\ rings lastNameDB <> []
  /\ exists db',
       CycleNodes defaults lastNameDB = Ok db'
       /\ Last (rings db') = Some (ff8, SubBucket [(str "k", str "v")])
       /\ ~ rotated_newest (rings lastNameDB) (rings db').
Proof.
  split; [by apply wf_rootb_sound|]. split; [done|].
  eexists. split; [reflexivity|]. split; [reflexivity|].
  intros (prev & e & name & n & _ & _ & Hlast & _). vm_compute in Hlast.
  discriminate Hlast.
Qed.

(** C4 (amended): on a store whose root holds at least one ring and whose
    newest ring name is below [2^64 - 1], after [CycleNodes] returns nil the
    newest ring is empty and its 8-byte name decodes to the previous newest
    name plus one; and with [min_rings >= 1] on a writable store it does
    return nil. *)
Theorem CycleNodes_newest_ring c db r prev e :
  top db = Some r -> wf_root r -> Last r = Some (prev, e) ->
  Bytes.be prev + 1 < 2 ^ 64 ->
  (forall db', CycleNodes c db = Ok db' -> rotated_newest r (rings db'))
  /\ (IsReadOnly db = false -> 1 <= minNumOldBuckets c ->
      exists db', CycleNodes c db = Ok db').
Proof.
  intros Htop Hwf Hlast Hn.
  destruct (wf_root_last r prev e Hwf Hlast) as [Hprev _].
  split.
  - intros db' Hok.
    destruct (Z.le_gt_cases 1 (minNumOldBuckets c)) as [Hmin|Hmin].
    + assert (Hro : IsReadOnly db = false).
      { unfold CycleNodes, Update in Hok. by destruct (IsReadOnly db). }
      rewrite (CycleNodes_wf c db r prev e) in Hok by done.
      injection Hok as <-. simpl.
      exists prev, e, (Bytes.PutUint64 (Bytes.be prev + 1)), (Bytes.be prev).
      pose proof (be_range prev).
      repeat split; try done.
      * by apply Uint64_be.
      * apply last_snoc.
      * apply Uint64_PutUint64. lia.
    + exfalso. unfold CycleNodes, Update in Hok.
      destruct (IsReadOnly db); [done|]. rewrite Htop in Hok.
      unfold CycleNodes_tx in Hok.
      destruct (trimLoop_length r (minNumOldBuckets c) Hwf)
        as (r1 & count1 & Htrim & _ & _ & Hlen1).
      rewrite Htrim in Hok. simpl in Hok.
      assert (r1 = []) as -> by (destruct r1; [done | simpl in Hlen1; lia]).
      done.
  - intros Hro Hmin. eexists. by apply (CycleNodes_wf c db r prev e).
Qed.

Lemma CycleNodes_newest_ring_witness :
  exists db', CycleNodes defaults fresh = Ok db'
              /\ rotated_newest (rings fresh) (rings db').
Proof.
  destruct (CycleNodes_newest_ring defaults fresh (rings fresh) Bytes.zero8
              (SubBucket []) eq_refl fresh_wf eq_refl)
    as [Hnew Hok].
  { change (Bytes.be Bytes.zero8) with 0. lia. }
  destruct (Hok eq_refl ltac:(done)) as [db' Hdb'].
  exists db'. split; [done|]. by apply Hnew.
Defined.

(** C10: with [min_rings >= 1] and at least one ring in a well-formed
    root, the trim loop of [CycleNodes] leaves at least one ring, so the
    key [cursor.Last] hands to [nextKey] is an 8-byte name and the decode
    in [nextKey] is in bounds; the transaction panics exactly when
    [min_rings <= 0], where the loop trims every ring. *)
Theorem CycleNodes_nextKey_in_bounds c r :
  wf_root r -> r <> [] ->
  (1 <= minNumOldBuckets c ->
   exists r1 count1 name e,
     trimLoop (keys r) (countBuckets r) (minNumOldBuckets c) r
     = Ok (r1, count1)
     /\ (1 <= length r1)%nat
     /\ Last r1 = Some (name, e) /\ length name = 8%nat
     /\ is_Some (Bytes.Uint64 name) /\ is_Some (nextKey (Some name)))
  /\ (CycleNodes_tx c (Some r) = Panic <-> minNumOldBuckets c <= 0).
Proof.
  intros Hwf Hne.
  destruct (trimLoop_length r (minNumOldBuckets c) Hwf)
    as (r1 & count1 & Htrim & Hwf1 & _ & Hlen1).
  assert (Hlen : 1 <= countBuckets r).
  { unfold countBuckets. destruct r; [done | simpl; lia]. }
  assert (Hkeep : 1 <= minNumOldBuckets c ->
            exists name e, Last r1 = Some (name, e) /\ length name = 8%nat
                           /\ (1 <= length r1)%nat).
  { intros Hmin. destruct (last r1) as [[name e]|] eqn:Hlast.
    - exists name, e. split; [done|].
      split; [by eapply wf_root_last|].
      destruct r1; [done | simpl; lia].
    - apply last_None in Hlast. subst r1. simpl in Hlen1. lia. }
  split.
  - intros Hmin. destruct (Hkeep Hmin) as (name & e & Hlast & Hname & Hr1).
    exists r1, count1, name, e. repeat split; try done.
    + rewrite Uint64_be by done. by eexists.
    + rewrite nextKey_ring by done. by eexists.
  - unfold CycleNodes_tx. rewrite Htrim. simpl. split.
    + intros Hpanic.
      destruct (Z.le_gt_cases (minNumOldBuckets c) 0) as [|Hmin]; [done|].
      exfalso. destruct (Hkeep ltac:(lia)) as (name & e & Hlast & Hname & _).
      rewrite Hlast in Hpanic.
      change (fst <$> Some (name, e)) with (Some name) in Hpanic.
      rewrite nextKey_ring in Hpanic by done.
      destruct (CreateBucket _ r1) eqn:Hcr; try done.
      by apply CreateBucket_no_panic in Hcr.
    + intros Hmin.
      assert (r1 = []) as -> by (destruct r1; [done | simpl in Hlen1; lia]).
      done.
Qed.

Lemma CycleNodes_nextKey_in_bounds_witness :
  1 <= minNumOldBuckets defaults
  /\ exists r1 count1 name e,
       trimLoop (keys (rings fresh)) (countBuckets (rings fresh))
         (minNumOldBuckets defaults) (rings fresh) = Ok (r1, count1)
       /\ (1 <= length r1)%nat
       /\ Last r1 = Some (name, e) /\ length name = 8%nat
       /\ is_Some (Bytes.Uint64 name) /\ is_Some (nextKey (Some name)).
Proof.
  split; [done|].
  apply (CycleNodes_nextKey_in_bounds defaults (rings fresh) fresh_wf);
    done.
Defined.

End RotationClaims.

(** *** Write *)

Section WriteFacts.
Import Bolt Boltcycle.
Implicit Types (r : root) (b : ring) (db : DB) (towrite : list KvPair).

Lemma Put_Ok k v b b' : Put k v b = Ok b' -> b' = put k v b /\ k <> [].
Proof.
  unfold Put. destruct k; [done|].
  destruct (MaxKeySize <? _); [done|]. destruct (MaxValueSize <? _); [done|].
  by intros [= <-].
Qed.

Lemma Put_accepts (k v : bytes) b :
  k <> [] -> Z.of_nat (length k) <= MaxKeySize ->
  Z.of_nat (length v) <= MaxValueSize -> Put k v b = Ok (put k v b).
Proof.
  intros Hk Hlk Hlv. unfold Put.
  destruct (Z.ltb_spec MaxKeySize (Z.of_nat (length k))); [lia|].
  destruct (Z.ltb_spec MaxValueSize (Z.of_nat (length v))); [lia|].
  by destruct k.
Qed.

Lemma Put_admissible p b :
  admissible p -> Put (Key p) (Value p) b = Ok (put (Key p) (Value p) b).
Proof. intros (Hk & Hlk & Hlv). by apply Put_accepts. Qed.

Lemma putAll_Ok towrite b b' :
  putAll towrite b = Ok b' -> b' = putsOf towrite b.
Proof.
  revert b. induction towrite as [|p rest IH]; intros b; simpl.
  - by intros [= <-].
  - destruct (Put (Key p) (Value p) b) as [b1| |] eqn:Hput; simpl; try done.
    apply Put_Ok in Hput as [-> _]. apply IH.
Qed.

Lemma putAll_admissible towrite b :
  Forall admissible towrite -> putAll towrite b = Ok (putsOf towrite b).
Proof.
  intros Hall. revert b. induction Hall as [|p rest Hp _ IH]; intros b; simpl.
  - done.
  - rewrite Put_admissible by done. simpl. apply IH.
Qed.

Lemma putsOf_sorted towrite b : sorted b -> sorted (putsOf towrite b).
Proof.
  revert b. induction towrite as [|p rest IH]; intros b Hs; simpl; [done|].
  by apply IH, put_sorted.
Qed.

Lemma lastValue_cons k p rest :
  lastValue k (p :: rest)
  = match lastValue k rest with
    | Some v => Some v
    | None => if decide (Key p = k) then Some (Value p) else None
    end.
Proof.
  unfold lastValue. rewrite filter_cons.
  destruct (decide (Key p = k)); [|by destruct (last _)].
  rewrite last_cons. by destruct (last _).
Qed.

(** Last write wins, per key. *)
Lemma get_putsOf k towrite b :
  sorted b ->
  get k (putsOf towrite b)
  = match lastValue k towrite with Some v => Some v | None => get k b end.
Proof.
  revert b. induction towrite as [|p rest IH]; intros b Hs; simpl; [done|].
  rewrite IH by by apply put_sorted.
  rewrite lastValue_cons. destruct (lastValue k rest); [done|].
  rewrite get_put by done. by destruct (decide (k = Key p)), (decide (Key p = k)).
Qed.

Lemma put_replace_last {V} (l : list (bytes * V)) name x y :
  Forall (fun k' => Bytes.lt k' name) (keys l) ->
  put name x (l ++ [(name, y)]) = l ++ [(name, x)].
Proof.
  unfold keys. induction l as [|[k1 v1] l IH]; simpl.
  - by rewrite bytes_compare_refl.
  - intros [Hlt Hall]%Forall_cons. apply bytes_lt_gt in Hlt. simpl in Hlt.
    rewrite Hlt. by rewrite IH.
Qed.

Lemma sorted_snoc_below {V} (l : list (bytes * V)) name y :
  sorted (l ++ [(name, y)]) -> Forall (fun k' => Bytes.lt k' name) (keys l).
Proof.
  unfold sorted, keys. rewrite fmap_app. simpl. intros Hs.
  apply Forall_forall. intros x Hx.
  eapply StronglySorted_app_1_elem_of; [exact Hs | exact Hx | left].
Qed.

(** Writing a ring back under the newest name replaces the last child of
    the root and nothing else. *)
Lemma store_last r name e b :
  sorted r -> Last r = Some (name, e) ->
  exists l, r = l ++ [(name, e)] /\ store name b r = l ++ [(name, SubBucket b)].
Proof.
  intros Hs [l ->]%last_Some. exists l. split; [done|].
  unfold store. apply put_replace_last. by eapply sorted_snoc_below.
Qed.

Lemma Bucket_last r name b :
  sorted r -> Last r = Some (name, SubBucket b) -> Bucket name r = Some b.
Proof.
  intros Hs Hlast. unfold Bucket.
  assert (get name r = Some (SubBucket b)) as ->; [|done].
  apply get_Some; [done|]. by apply last_Some_elem_of.
Qed.

Lemma wf_root_largest r name e :
  wf_root r -> Last r = Some (name, e) ->
  Forall (fun k' => Bytes.be k' <= Bytes.be name) (keys r).
Proof.
  intros Hwf Hlast. pose proof Hwf as [Hs Hall].
  destruct (wf_root_last r name e Hwf Hlast) as [Hname _].
  pose proof (sorted_last_max r name e Hs Hlast) as Hmax.
  apply Forall_forall. intros k' Hk'. rewrite Forall_forall in Hmax.
  pose proof (Hmax k' Hk') as Hle. simpl in Hle.
  apply keys_elem in Hk' as [e' Hin]. rewrite Forall_forall in Hall.
  apply Hall in Hin as [Hlen' _]. simpl in Hlen'.
  unfold Bytes.le in Hle. rewrite be_compare in Hle by congruence.
  by apply Z.compare_le_iff.
Qed.

(** C8: [Write] puts the pairs of the batch, in batch order, into the ring
    with the largest name, inside one write transaction; of several pairs
    with one key the last one's value is stored; no other ring changes.
    On a writable store with at least one ring it succeeds when the store
    accepts every pair. *)
Theorem Write_newest_ring db towrite r :
  top db = Some r -> wf_root r ->
  (IsReadOnly db = false -> r <> [] -> Forall admissible towrite ->
   exists db', Write db towrite = Ok db')
  /\ forall db', Write db towrite = Ok db' ->
     exists l name b,
       r = l ++ [(name, SubBucket b)]
       /\ Forall (fun k' => Bytes.be k' <= Bytes.be name) (keys r)
       /\ putAll towrite b = Ok (putsOf towrite b)
       /\ rings db' = l ++ [(name, SubBucket (putsOf towrite b))]
       /\ forall k,
            get k (putsOf towrite b)
            = match lastValue k towrite with
              | Some v => Some v
              | None => get k b
              end.
Proof.
  intros Htop Hwf. pose proof Hwf as [Hs Hall]. split.
  - intros Hro Hne Hadm. unfold Write, Update. rewrite Hro, Htop.
    unfold Write_tx. destruct (last r) as [[name e]|] eqn:Hlast;
      [|by apply last_None in Hlast].
    destruct (wf_root_last r name e Hwf Hlast) as (_ & b & -> & _).
    unfold Last. rewrite Hlast.
    change (fst <$> Some (name, SubBucket b)) with (Some name).
    cbv beta iota. rewrite (Bucket_last r name b Hs Hlast).
    rewrite putAll_admissible by done. simpl. by eexists.
  - intros db'. unfold Write, Update. destruct (IsReadOnly db); [done|].
    rewrite Htop. unfold Write_tx.
    destruct (last r) as [[name e]|] eqn:Hlast; unfold Last; rewrite Hlast;
      [|done].
    destruct (wf_root_last r name e Hwf Hlast) as (_ & b & -> & Hb).
    change (fst <$> Some (name, SubBucket b)) with (Some name).
    cbv beta iota. rewrite (Bucket_last r name b Hs Hlast).
    destruct (putAll towrite b) as [b'| |] eqn:Hput; simpl; try done.
    pose proof (putAll_Ok _ _ _ Hput) as ->. intros [= <-].
    destruct (store_last r name (SubBucket b) (putsOf towrite b) Hs Hlast)
      as (l & Hr & Hstore).
    exists l, name, b. split; [done|].
    split; [by eapply wf_root_largest|]. split; [done|].
    split; [exact Hstore|].
    intros k. apply get_putsOf, Hb.
Qed.

Lemma Write_newest_ring_witness :
  let towrite := [pair "a" "1"; pair "b" "2"; pair "a" "3"] in
  exists db',
    Write fresh towrite = Ok db'
    /\ rings db' = [(Bytes.zero8, SubBucket [kv "a" "3"; kv "b" "2"])].
Proof.
  intros towrite.
  destruct (Write_newest_ring fresh towrite (rings fresh) eq_refl fresh_wf)
    as [Hok Hres].
  destruct Hok as [db' Hdb']; [done | done | |].
  { repeat constructor; done. }
  exists db'. split; [done|].
  destruct (Hres db' Hdb') as (l & name & b & Hr & _ & _ & -> & _).
  change (rings fresh) with [(Bytes.zero8, SubBucket [])] in Hr.
  destruct l as [|x l]; [|exfalso; injection Hr as _ Hnil; by destruct l].
  simpl in Hr. injection Hr as <- <-. reflexivity.
Defined.

End WriteFacts.

(** *** Delete *)

Section DeleteFacts.
Import Bolt Boltcycle.
Implicit Types (r : root) (b : ring) (db : DB) (ret : list bool).

Lemma wf_bucket_del k b : wf_bucket b -> wf_bucket (del k b).
Proof.
  intros [Hs Hne]. split; [by apply del_sorted|].
  apply Forall_forall. intros x [_ Hx]%del_keys.
  rewrite Forall_forall in Hne. by apply Hne.
Qed.

Lemma wf_bucket_delAll ks b : wf_bucket b -> wf_bucket (delAll ks b).
Proof.
  revert b. induction ks as [|k ks IH]; intros b Hb; simpl; [done|].
  by apply IH, wf_bucket_del.
Qed.

Lemma delAll_elem ks b k v :
  (k, v) ∈ delAll ks b <-> (k, v) ∈ b /\ k ∉ ks.
Proof.
  revert b. induction ks as [|k0 ks IH]; intros b; simpl.
  - rewrite elem_of_nil. tauto.
  - rewrite IH, del_elem, not_elem_of_cons. tauto.
Qed.

Lemma delAll_keys ks b k : k ∈ keys (delAll ks b) <-> k ∈ keys b /\ k ∉ ks.
Proof.
  split.
  - intros [v [Hin Hnot]%delAll_elem]%keys_elem. split; [|done].
    by eapply elem_keys.
  - intros [[v Hin]%keys_elem Hnot]. apply (elem_keys _ v).
    by apply delAll_elem.
Qed.

(** What the test [bytes.Equal(k, key)] after [Seek] decides, for a key
    that is not empty. *)
Lemma seek_Equal (k0 : bytes) b :
  wf_bucket b -> k0 <> [] ->
  Bytes.Equal (fst <$> seek k0 b) k0 = true <-> k0 ∈ keys b.
Proof.
  intros [Hs _] Hk0. split.
  - destruct (seek k0 b) as [[k v]|] eqn:E; simpl.
    + intros ->%bytes_eqb_eq. apply seek_elem in E as [Hin _].
      by eapply elem_keys.
    + by destruct k0.
  - intros [v Hin]%keys_elem. apply get_Some in Hin; [|done].
    unfold get in Hin. destruct (seek k0 b) as [[k v']|]; [|done]. simpl.
    by destruct (Bytes.eqb k k0).
Qed.

Lemma seek_Equal_key (k0 : bytes) b :
  k0 <> [] -> Bytes.Equal (fst <$> seek k0 b) k0 = true ->
  fst <$> seek k0 b = Some k0.
Proof.
  intros Hk0. destruct (seek k0 b) as [[k v]|]; simpl.
  - by intros ->%bytes_eqb_eq.
  - by destruct k0.
Qed.

Lemma deleteKeys_spec ks index b ret :
  wf_bucket b -> Forall (fun k => k <> []) ks ->
  exists ret',
    deleteKeys ks index b ret = (delAll ks b, ret')
    /\ length ret' = length ret
    /\ forall j,
         ret' !! j = Some true
         <-> ret !! j = Some true
             \/ ((j < length ret)%nat
                 /\ exists i k, j = (index + i)%nat /\ ks !! i = Some k
                                /\ k ∈ keys b /\ k ∉ take i ks).
Proof.
  intros Hb Hks. revert index b ret Hb.
  induction Hks as [|k0 ks Hk0 _ IH]; intros index b ret Hb; simpl.
  - exists ret. split; [done|]. split; [done|]. intros j. split; [by left|].
    intros [H|(_ & i & k & _ & H & _)]; done.
  - destruct (Bytes.Equal (fst <$> seek k0 b) k0) eqn:E.
    + pose proof (seek_Equal_key k0 b Hk0 E) as ->. simpl.
      apply seek_Equal in E; [|done..].
      destruct (IH (S index) (del k0 b) (<[index:=true]> ret)
                  (wf_bucket_del k0 b Hb)) as (ret' & -> & Hlen & Hret).
      exists ret'. split; [done|]. rewrite length_insert in Hlen.
      split; [done|]. intros j. rewrite Hret, length_insert. split.
      * intros [Hj|(Hlt & i & k & -> & Hi & Hin & Hnot)].
        -- destruct (decide (j = index)) as [->|Hne].
           ++ apply lookup_lt_Some in Hj. rewrite length_insert in Hj.
              right. split; [done|]. exists 0%nat, k0.
              rewrite Nat.add_0_r. repeat split; try done.
              apply not_elem_of_nil.
           ++ left. by rewrite list_lookup_insert_ne in Hj.
        -- right. split; [done|]. exists (S i), k.
           apply del_keys in Hin as [Hne Hin].
           repeat split; try done; [lia|].
           simpl. by apply not_elem_of_cons.
      * intros [Hj|(Hlt & [|i] & k & -> & Hi & Hin & Hnot)].
        -- left. destruct (decide (j = index)) as [->|Hne].
           ++ apply list_lookup_insert_eq. by eapply lookup_lt_Some.
           ++ by rewrite list_lookup_insert_ne.
        -- left. rewrite Nat.add_0_r in *. by apply list_lookup_insert_eq.
        -- right. split; [done|]. exists i, k. simpl in Hi, Hnot.
           apply not_elem_of_cons in Hnot as [Hne Hnot].
           repeat split; try done; [lia|]. by apply del_keys.
    + assert (Hnot0 : k0 ∉ keys b).
      { intros Hin. apply seek_Equal in Hin; [congruence | done..]. }
      rewrite del_absent by done.
      destruct (IH (S index) b ret Hb) as (ret' & -> & Hlen & Hret).
      exists ret'. split; [done|]. split; [done|].
      intros j. rewrite Hret. split.
      * intros [Hj|(Hlt & i & k & -> & Hi & Hin & Hnot)]; [by left|].
        right. split; [done|]. exists (S i), k.
        repeat split; try done; [lia|]. simpl. apply not_elem_of_cons.
        split; [|done]. by intros ->.
      * intros [Hj|(Hlt & [|i] & k & -> & Hi & Hin & Hnot)]; [by left| |].
        -- simpl in Hi. by simplify_eq.
        -- right. split; [done|]. exists i, k. simpl in Hi, Hnot.
           apply not_elem_of_cons in Hnot as [Hne Hnot].
           repeat split; try done. lia.
Qed.

Lemma put_replace_mid {V} (pre post : list (bytes * V)) name x y :
  Forall (fun k' => Bytes.lt k' name) (keys pre) ->
  put name x (pre ++ (name, y) :: post) = pre ++ (name, x) :: post.
Proof.
  unfold keys. induction pre as [|[k1 v1] pre IH]; simpl.
  - by rewrite bytes_compare_refl.
  - intros [Hlt Hall]%Forall_cons. apply bytes_lt_gt in Hlt. simpl in Hlt.
    rewrite Hlt. by rewrite IH.
Qed.

Lemma sorted_mid_below {V} (pre post : list (bytes * V)) name y :
  sorted (pre ++ (name, y) :: post) ->
  Forall (fun k' => Bytes.lt k' name) (keys pre).
Proof.
  unfold sorted, keys. rewrite fmap_app. simpl. intros Hs.
  apply Forall_forall. intros x Hx.
  eapply StronglySorted_app_1_elem_of; [exact Hs | exact Hx | left].
Qed.

Lemma wf_root_replace pre post name b b' :
  wf_root (pre ++ (name, SubBucket b) :: post) -> wf_bucket b' ->
  wf_root (pre ++ (name, SubBucket b') :: post).
Proof.
  intros [Hs Hall] Hb'. split.
  - unfold sorted, keys in *. rewrite fmap_app in *. exact Hs.
  - apply Forall_app in Hall as [Hpre [Hx Hpost]%Forall_cons].
    apply Forall_app. split; [done|]. constructor; [|done].
    destruct Hx as [Hlen _]. split; [done|]. by exists b'.
Qed.

Lemma wf_root_mid pre post name e :
  wf_root (pre ++ (name, e) :: post) ->
  exists b, e = SubBucket b /\ wf_bucket b
            /\ Bucket name (pre ++ (name, SubBucket b) :: post) = Some b.
Proof.
  intros [Hs Hall].
  pose proof Hall as [_ [(_ & b & He & Hb) _]%Forall_cons]%Forall_app.
  simpl in He. subst e. exists b. split; [done|]. split; [done|].
  unfold Bucket.
  assert (get name (pre ++ (name, SubBucket b) :: post)
          = Some (SubBucket b)) as ->; [|done].
  apply get_Some; [done|]. apply elem_of_app. right. left.
Qed.

Lemma deleteEach_spec pre cur ks ret :
  wf_root (pre ++ cur) -> Forall (fun k => k <> []) ks ->
  exists ret',
    deleteEach cur ks (pre ++ cur) ret = (ret', Ok (pre ++ (stripRoot ks cur)))
    /\ length ret' = length ret
    /\ forall j,
         ret' !! j = Some true
         <-> ret !! j = Some true
             \/ ((j < length ret)%nat
                 /\ exists k, ks !! j = Some k /\ (k ∉ take j ks)
                              /\ exists name b, (name, SubBucket b) ∈ cur
                                                /\ k ∈ keys b).
Proof.
  intros Hwf Hks. revert pre ret Hwf.
  induction cur as [|[name e] cur IH]; intros pre ret Hwf; simpl.
  - exists ret. split; [done|]. split; [done|]. intros j. split; [by left|].
    intros [H|(_ & k & _ & _ & name & b & H & _)]; [done|].
    by apply elem_of_nil in H.
  - destruct (wf_root_mid pre cur name e Hwf) as (b & -> & Hb & ->).
    destruct (deleteKeys_spec ks 0 b ret Hb Hks) as (ret1 & -> & Hlen1 & Hret1).
    unfold store.
    rewrite put_replace_mid by (eapply sorted_mid_below; apply Hwf).
    pose proof (wf_root_replace pre cur name b (delAll ks b) Hwf
                  (wf_bucket_delAll ks b Hb)) as Hwf1.
    rewrite (cons_middle _ pre cur) in Hwf1 |- *.
    rewrite app_assoc in Hwf1 |- *.
    destruct (IH _ ret1 Hwf1) as (ret' & -> & Hlen & Hret).
    exists ret'. split.
    { f_equal. f_equal. by rewrite <- app_assoc. }
    split; [congruence|]. intros j. rewrite Hret, Hret1, Hlen1. split.
    + intros [[Hj|(Hlt & i & k & -> & Hi & Hin & Hnot)]
             |(Hlt & k & Hj & Hnot & name' & b' & Hin' & Hk)].
      * by left.
      * right. split; [done|]. exists k. split; [done|]. split; [done|].
        exists name, b. split; [left | done].
      * right. split; [done|]. exists k. split; [done|]. split; [done|].
        exists name', b'. split; [by right | done].
    + intros [Hj|(Hlt & k & Hj & Hnot & name' & b' & Hin' & Hk)].
      * left. by left.
      * apply elem_of_cons in Hin' as [[= -> ->]|Hin'].
        -- left. right. split; [done|]. by exists j, k.
        -- right. split; [done|]. exists k. split; [done|]. split; [done|].
           by exists name', b'.
Qed.

Lemma stripRoot_keys ks r : keys (stripRoot ks r) = keys r.
Proof.
  unfold keys, stripRoot. rewrite <- list_fmap_compose.
  by apply list_fmap_ext.
Qed.

Lemma stripRoot_elem ks r name b' :
  (name, SubBucket b') ∈ stripRoot ks r
  <-> exists b, (name, SubBucket b) ∈ r /\ b' = delAll ks b.
Proof.
  unfold stripRoot. rewrite list_elem_of_fmap. split.
  - intros ([name0 e] & Heq & Hin). unfold stripEntry in Heq.
    simpl in Heq. destruct e as [b|v]; simplify_eq. by exists b.
  - intros (b & Hin & ->). by exists (name, SubBucket b).
Qed.

Lemma wf_root_strip ks r : wf_root r -> wf_root (stripRoot ks r).
Proof.
  intros [Hs Hall]. split.
  - unfold sorted. by rewrite stripRoot_keys.
  - unfold stripRoot. apply Forall_fmap. eapply Forall_impl; [exact Hall|].
    intros [name e] (Hlen & b & He & Hb). simpl in *. subst e.
    split; [done|]. exists (delAll ks b). split; [done|].
    by apply wf_bucket_delAll.
Qed.

Lemma present_strip ks r k :
  present (stripRoot ks r) k <-> present r k /\ k ∉ ks.
Proof.
  unfold present. split.
  - intros (name & b' & (b & Hin & ->)%stripRoot_elem & [Hk Hnot]%delAll_keys).
    split; [|done]. by exists name, b.
  - intros [(name & b & Hin & Hk) Hnot]. exists name, (delAll ks b). split.
    + apply stripRoot_elem. by exists b.
    + by apply delAll_keys.
Qed.

Lemma Delete_spec db ks r :
  top db = Some r -> wf_root r -> IsReadOnly db = false ->
  Forall (fun k => k <> []) ks ->
  exists ret,
    Delete db ks
    = (ret, Ok {| IsReadOnly := false; top := Some (stripRoot ks r) |})
    /\ length ret = length ks
    /\ forall i k, ks !! i = Some k ->
         (ret !! i = Some true <-> present r k /\ k ∉ take i ks).
Proof.
  intros Htop Hwf Hro Hks. unfold Delete. rewrite Hro, Htop.
  destruct (deleteEach_spec [] r ks (replicate (length ks) false) Hwf Hks)
    as (ret & Heach & Hlen & Hret).
  simpl in Heach. rewrite Heach. simpl. exists ret. split; [done|].
  rewrite length_replicate in Hlen, Hret. split; [done|].
  intros i k Hi. rewrite Hret. split.
  - intros [Hrep|(_ & k' & Hi' & Hnot & name & b & Hin & Hk)].
    + apply lookup_replicate in Hrep as [? _]. done.
    + simplify_eq. split; [|done]. by exists name, b.
  - intros [(name & b & Hin & Hk) Hnot]. right.
    split; [by eapply lookup_lt_Some|]. exists k. split; [done|].
    split; [done|]. by exists name, b.
Qed.

(** Both ways in which C6 fails as stated.  A key given twice is reported
    present only at its first position; and the empty key is reported
    present whenever some ring is empty (a cursor that ran off the end
    returns a nil key, which [bytes.Equal] takes for the empty key), again
    on every repetition of the call. *)
Lemma Delete_reports_differ :
  let db := {| IsReadOnly := false;
               top := Some [(Bytes.zero8, SubBucket [kv "k" "v"])] |} in
  (present (rings db) (str "k")
   /\ exists db', Delete db [str "k"; str "k"] = ([true; false], Ok db'))
  /\ (~ present (rings fresh) []
      /\ Delete fresh [[]] = ([true], Ok fresh)).
Proof.
  split; [split|split].
  - exists Bytes.zero8, [kv "k" "v"]. split; [left | left].
  - by eexists.
  - intros (name & b & Hin & Hk). apply list_elem_of_singleton in Hin.
    simplify_eq. by apply elem_of_nil in Hk.
  - reflexivity.
Qed.

(** C6 (amended): for every batch of non-empty keys, [Delete] on a
    writable, well-formed store removes every occurrence of each requested
    key from every ring (and nothing else) and returns, at position [i],
    true exactly when key [i] was present in at least one ring before the
    call and does not occur at an earlier position of the batch; a
    repeated [Delete] of the same keys returns all-false. *)
Theorem Delete_removes_and_reports db ks r :
  top db = Some r -> wf_root r -> IsReadOnly db = false ->
  Forall (fun k => k <> []) ks ->
  exists ret db',
    Delete db ks = (ret, Ok db')
    /\ length ret = length ks
    /\ (forall i k, ks !! i = Some k ->
          (ret !! i = Some true <-> present r k /\ k ∉ take i ks))
    /\ rings db' = stripRoot ks r
    /\ (forall k, present (rings db') k <-> present r k /\ k ∉ ks)
    /\ exists db'',
         Delete db' ks = (replicate (length ks) false, Ok db'').
Proof.
  intros Htop Hwf Hro Hks.
  destruct (Delete_spec db ks r Htop Hwf Hro Hks) as (ret & Hdel & Hlen & Hret).
  eexists ret, _. split; [exact Hdel|]. split; [done|]. split; [done|].
  split; [done|]. split; [intros k; apply present_strip|].
  destruct (Delete_spec {| IsReadOnly := false; top := Some (stripRoot ks r) |}
              ks (stripRoot ks r) eq_refl (wf_root_strip ks r Hwf) eq_refl Hks)
    as (ret2 & Hdel2 & Hlen2 & Hret2).
  eexists. rewrite Hdel2. f_equal.
  apply list_eq. intros i. destruct (ks !! i) as [k|] eqn:Hi.
  - rewrite lookup_replicate_2 by by eapply lookup_lt_Some.
    destruct (ret2 !! i) as [[|]|] eqn:Hr.
    + apply (Hret2 i k Hi) in Hr as [[_ Hnot]%present_strip _].
      exfalso. apply Hnot. by eapply list_elem_of_lookup_2.
    + done.
    + apply lookup_ge_None in Hr. apply lookup_lt_Some in Hi. lia.
  - apply lookup_ge_None in Hi.
    rewrite (proj2 (lookup_ge_None ret2 i)) by lia.
    symmetry. apply lookup_ge_None. rewrite length_replicate. lia.
Qed.

Lemma Delete_removes_and_reports_witness :
  let db := {| IsReadOnly := false;
               top := Some [(Bytes.zero8, SubBucket [kv "k" "v"])] |} in
  exists ret db',
    Delete db [str "k"; str "x"] = (ret, Ok db')
    /\ length ret = 2%nat
    /\ rings db' = stripRoot [str "k"; str "x"] (rings db).
Proof.
  intros db.
  destruct (Delete_removes_and_reports db [str "k"; str "x"] (rings db)
              eq_refl (wf_rootb_sound (rings db) eq_refl) eq_refl)
    as (ret & db' & Hdel & Hlen & _ & Hrings & _).
  { repeat constructor; done. }
  by exists ret, db'.
Defined.

End DeleteFacts.

(** *** Read *)

Section ReadFacts.
Import Bolt Boltcycle.
Implicit Types (r : root) (b : ring) (db : DB) (res : list readToLocation)
  (m : gmap nat bytes).

Lemma lookIn_get b id nc res m i (k : bytes) :
  lookIn b id nc (res, m) (i, k)
  = match get k b with
    | Some v =>
        (<[i := {| bucket := id; key := k; value := Some v;
                   needsCopy := nc |}]> res, delete i m)
    | None => (res, m)
    end.
Proof.
  unfold lookIn, get. destruct (seek k b) as [[k' v]|]; [|done].
  by destruct (Bytes.eqb k' k).
Qed.

Lemma list_insert_lookup_same {A} (l : list A) i x :
  <[i := x]> l !! i = (fun _ => x) <$> l !! i.
Proof.
  rewrite list_lookup_insert. destruct (l !! i) eqn:E; simpl.
  - apply lookup_lt_Some in E. by rewrite decide_True.
  - apply lookup_ge_None in E. rewrite decide_False; [done | lia].
Qed.

(** One ring, whatever the order in which the pending indexes are
    taken: a pending index whose key the ring holds gets its slot filled
    and leaves the map, everything else stays. *)
Lemma searchRing_spec b id nc (order : list (nat * bytes)) res m i :
  NoDup order.*1 ->
  let st := searchRing b id nc order (res, m) in
  match (list_to_map order : gmap nat bytes) !! i with
  | Some k =>
      match get k b with
      | Some v =>
          st.1 !! i = (fun _ => {| bucket := id; key := k; value := Some v;
                                  needsCopy := nc |}) <$> res !! i
          /\ st.2 !! i = None
      | None => st.1 !! i = res !! i /\ st.2 !! i = m !! i
      end
  | None => st.1 !! i = res !! i /\ st.2 !! i = m !! i
  end.
Proof.
  unfold searchRing. revert res m.
  induction order as [|[i0 k0] order IH]; intros res m Hnd; cbv zeta.
  - simpl. by rewrite lookup_empty.
  - rewrite fmap_cons in Hnd. apply NoDup_cons in Hnd as [Hnot Hnd].
    simpl in Hnot. cbn [foldl].
    rewrite list_to_map_cons, lookIn_get, lookup_insert.
    destruct (decide (i0 = i)) as [->|Hne].
    + apply not_elem_of_list_to_map in Hnot.
      destruct (get k0 b) as [v|] eqn:Hget.
      * specialize (IH (<[i:={| bucket := id; key := k0; value := Some v;
                                needsCopy := nc |}]> res) (delete i m) Hnd).
        cbv zeta in IH. rewrite Hnot in IH. destruct IH as [-> ->].
        by rewrite list_insert_lookup_same, lookup_delete_eq.
      * specialize (IH res m Hnd). cbv zeta in IH. by rewrite Hnot in IH.
    + destruct (get k0 b) as [v0|] eqn:Hget0.
      * specialize (IH (<[i0:={| bucket := id; key := k0; value := Some v0;
                                 needsCopy := nc |}]> res) (delete i0 m) Hnd).
        cbv zeta in IH.
        rewrite list_lookup_insert_ne, lookup_delete_ne in IH by done.
        exact IH.
      * apply (IH res m Hnd).
Qed.

Lemma lookup_indexesToFetch toread i : indexesToFetch toread !! i = toread !! i.
Proof.
  unfold indexesToFetch.
  destruct (toread !! i) as [k|] eqn:E.
  - apply elem_of_list_to_map.
    + rewrite fmap_imap. simpl. apply NoDup_alt. intros a c x.
      rewrite !list_lookup_imap. intros Ha Hc.
      destruct (toread !! a), (toread !! c); simplify_eq/=. done.
    + apply elem_of_lookup_imap. by exists i, k.
  - apply not_elem_of_list_to_map. rewrite fmap_imap. simpl.
    intros (j & Hj)%list_elem_of_lookup_1. rewrite list_lookup_imap in Hj.
    destruct (toread !! j) eqn:Ej; simplify_eq/=.
Qed.

Lemma Bucket_ring r name b :
  sorted r -> (name, SubBucket b) ∈ r -> Bucket name r = Some b.
Proof.
  intros Hs Hin. unfold Bucket.
  by rewrite (proj2 (get_Some name (SubBucket b) r Hs) Hin).
Qed.

(** The loop over the rings computes [locate] for every pending index. *)
Lemma searchRings_spec r cur nc res m :
  wf_root r -> (forall x, x ∈ cur -> x ∈ r) ->
  exists res',
    searchRings r cur nc (res, m) = Ok res'
    /\ forall i,
         res' !! i
         = match m !! i with
           | Some k =>
               match locate cur nc k with
               | Some loc => (fun _ => loc) <$> res !! i
               | None => res !! i
               end
           | None => res !! i
           end.
Proof.
  intros Hwf. revert nc res m.
  induction cur as [|[name e] cur IH]; intros nc res m Hsub.
  - exists res. split; [done|]. intros i. simpl. by destruct (m !! i).
  - cbn [searchRings]. cbn [fst snd].
    destruct (Nat.ltb_spec 0 (size m)) as [Hpos|Hzero].
    + pose proof Hwf as [Hs Hall]. rewrite Forall_forall in Hall.
      destruct (Hall (name, e) (Hsub _ ltac:(left)))
        as (Hlen & b & He & Hb). simpl in Hlen, He. subst e.
      rewrite (Bucket_ring r name b Hs (Hsub _ ltac:(left))).
      rewrite (Uint64_be name Hlen).
      destruct (searchRing b (Bytes.be name) nc (map_to_list m) (res, m))
        as [res1 m1] eqn:Hst.
      destruct (IH true res1 m1) as (res' & -> & Hres').
      { intros x Hx. apply Hsub. by right. }
      exists res'. split; [done|]. intros i. rewrite Hres'.
      pose proof (searchRing_spec b (Bytes.be name) nc (map_to_list m) res m i
                    (NoDup_fst_map_to_list m)) as Hone.
      cbv zeta in Hone. rewrite Hst, list_to_map_to_list in Hone.
      simpl in Hone. simpl. destruct (m !! i) as [k|] eqn:Hmi.
      * destruct (get k b) as [v|] eqn:Hget.
        -- destruct Hone as [-> ->]. done.
        -- destruct Hone as [-> ->]. done.
      * destruct Hone as [-> ->]. done.
    + assert (m = ∅) as -> by (apply map_size_empty_iff; lia).
      exists res. split; [done|]. intros i. by rewrite lookup_empty.
Qed.

(** [indexToLocation] is [locate] mapped over the batch. *)
Lemma indexToLocation_spec db toread r :
  top db = Some r -> wf_root r ->
  indexToLocation db toread
  = Ok ((fun k => default zeroLocation (locate (reverse r) false k))
          <$> toread).
Proof.
  intros Htop Hwf. unfold indexToLocation, View. rewrite Htop.
  destruct (searchRings_spec r (reverse r) false
              (replicate (length toread) zeroLocation)
              (indexesToFetch toread) Hwf) as (res' & -> & Hres').
  { intros x. by rewrite elem_of_reverse. }
  f_equal. apply list_eq. intros i. rewrite Hres', lookup_indexesToFetch.
  rewrite list_lookup_fmap. destruct (toread !! i) as [k|] eqn:Hi; simpl.
  - rewrite lookup_replicate_2 by by eapply lookup_lt_Some.
    by destruct (locate _ _ _).
  - apply lookup_ge_None in Hi. apply lookup_ge_None.
    by rewrite length_replicate.
Qed.

Lemma locate_Some cur nc (k : bytes) loc :
  locate cur nc k = Some loc ->
  exists pre name b post v,
    cur = pre ++ (name, SubBucket b) :: post
    /\ get k b = Some v
    /\ (forall name' b', (name', SubBucket b') ∈ pre -> get k b' = None)
    /\ loc = {| bucket := Bytes.be name; key := k; value := Some v;
                needsCopy := match pre with [] => nc | _ => true end |}.
Proof.
  revert nc. induction cur as [|[name e] cur IH]; intros nc; simpl; [done|].
  destruct e as [b|v0].
  - destruct (get k b) as [v|] eqn:Hget.
    + intros [= <-]. exists [], name, b, cur, v.
      repeat split; try done. intros ?? H. by apply elem_of_nil in H.
    + intros (pre & name1 & b1 & post & v & -> & Hv & Hpre & ->)%IH.
      exists ((name, SubBucket b) :: pre), name1, b1, post, v.
      repeat split; try done.
      * intros name' b' [[= -> ->]|Hin]%elem_of_cons; [done|].
        by eapply Hpre.
      * by destruct pre.
  - intros (pre & name1 & b1 & post & v & -> & Hv & Hpre & ->)%IH.
    exists ((name, Leaf v0) :: pre), name1, b1, post, v.
    repeat split; try done.
    + intros name' b' [[=]|Hin]%elem_of_cons. by eapply Hpre.
    + by destruct pre.
Qed.

Lemma locate_None cur nc (k : bytes) :
  locate cur nc k = None ->
  forall name b, (name, SubBucket b) ∈ cur -> get k b = None.
Proof.
  revert nc. induction cur as [|[name e] cur IH]; intros nc; simpl.
  - intros _ ?? H. by apply elem_of_nil in H.
  - destruct e as [b|v0].
    + destruct (get k b) as [v|] eqn:Hget; [done|].
      intros Hloc name' b' [[= -> ->]|Hin]%elem_of_cons; [done|].
      by eapply IH.
    + intros Hloc name' b' [[=]|Hin]%elem_of_cons. by eapply IH.
Qed.

Lemma wf_root_ring r name b :
  wf_root r -> (name, SubBucket b) ∈ r -> length name = 8%nat /\ wf_bucket b.
Proof.
  intros [_ Hall] Hin. rewrite Forall_forall in Hall.
  destruct (Hall _ Hin) as (Hlen & b' & [= <-] & Hb). done.
Qed.

(** On a well-formed root, what [locate] returns is the entry of the ring
    with the largest name among those that hold the key, flagged for
    promotion unless that ring is the newest. *)
Lemma locate_newest r (k : bytes) loc :
  wf_root r -> locate (reverse r) false k = Some loc ->
  exists name b v,
    (name, SubBucket b) ∈ r /\ (k, v) ∈ b
    /\ loc = {| bucket := Bytes.be name; key := k; value := Some v;
                needsCopy := needsCopy loc |}
    /\ (forall name' b', (name', SubBucket b') ∈ r -> k ∈ keys b' ->
          Bytes.be name' <= Bytes.be name)
    /\ (needsCopy loc = false <-> Last r = Some (name, SubBucket b)).
Proof.
  intros Hwf (pre & name & b & post & v & Hrev & Hv & Hpre & ->)%locate_Some.
  assert (Hr : r = (reverse post ++ [(name, SubBucket b)]) ++ reverse pre).
  { rewrite <- (reverse_involutive r), Hrev.
    by rewrite reverse_app, reverse_cons. }
  assert (Hin : (name, SubBucket b) ∈ r).
  { rewrite Hr. apply elem_of_app. left. apply elem_of_app. right. left. }
  destruct (wf_root_ring r name b Hwf Hin) as [Hlen Hb].
  pose proof Hwf as [Hs _].
  assert (Habove : forall name' e', (name', e') ∈ pre -> Bytes.lt name name').
  { intros name' e' Hin'. unfold sorted, keys in Hs. rewrite Hr in Hs.
    rewrite fmap_app in Hs.
    eapply (StronglySorted_app_1_elem_of _ _ _ _ _ Hs).
    - rewrite fmap_app. apply elem_of_app. right. left.
    - apply list_elem_of_fmap. exists (name', e'). split; [done|].
      by apply elem_of_reverse. }
  exists name, b, v. split; [done|].
  split; [exact (proj1 (get_Some k v b (proj1 Hb)) Hv)|].
  split; [done|]. split.
  - intros name' b' Hin' Hk'.
    destruct (wf_root_ring r name' b' Hwf Hin') as [Hlen' Hb'].
    rewrite Hr in Hin'. apply elem_of_app in Hin' as [Hin'|Hin'].
    + assert (Hle : Bytes.le name' name).
      { eapply (Forall_forall (fun k' => Bytes.le k' name)).
        - eapply (sorted_last_max (reverse post ++ [(name, SubBucket b)])).
          + unfold sorted, keys in *. rewrite Hr, fmap_app in Hs.
            by eapply StronglySorted_app_1_l.
          + apply last_snoc.
        - by eapply elem_keys. }
      unfold Bytes.le in Hle. rewrite be_compare in Hle by congruence.
      by apply Z.compare_le_iff.
    + rewrite elem_of_reverse in Hin'. apply Hpre in Hin'.
      apply get_None in Hin'; [done | apply Hb'].
  - simpl. split.
    + intros Hnc. destruct pre; [|done]. rewrite Hr. simpl.
      rewrite app_nil_r. apply last_snoc.
    + intros Hlast. destruct pre as [|[name' e'] pre]; [done|]. exfalso.
      assert (Hin' : (name', e') ∈ (name', e') :: pre) by left.
      pose proof (sorted_last_max r name (SubBucket b) Hs Hlast) as Hmax.
      rewrite Forall_forall in Hmax.
      assert (Hle : Bytes.le name' name).
      { apply Hmax. apply (elem_keys _ e'). rewrite Hr.
        apply elem_of_app. right. by apply elem_of_reverse. }
      eapply bytes_lt_irrefl, bytes_lt_le_trans; [by eapply Habove | done].
Qed.

Lemma locate_absent r (k : bytes) :
  wf_root r -> locate (reverse r) false k = None <-> ~ present r k.
Proof.
  intros Hwf. split.
  - intros Hloc (name & b & Hin & Hk).
    destruct (wf_root_ring r name b Hwf Hin) as [_ Hb].
    eapply locate_None in Hloc; [|by apply elem_of_reverse].
    apply get_None in Hloc; [done | apply Hb].
  - intros Hnot. destruct (locate (reverse r) false k) as [loc|] eqn:E; [|done].
    exfalso. apply Hnot.
    destruct (locate_newest r k loc Hwf E) as (name & b & v & Hin & Hk & _).
    exists name, b. split; [done|]. by eapply elem_keys.
Qed.

Lemma sendAll_open locs ch :
  closed ch = false ->
  sendAll locs ch
  = Ok {| buf := buf ch ++ filter (fun l => needsCopy l = true) locs;
          closed := false |}.
Proof.
  revert ch. induction locs as [|loc locs IH]; intros [q cl] Hcl;
    simpl in *; subst cl.
  - by rewrite app_nil_r.
  - rewrite filter_cons.
    destruct (decide (needsCopy loc = true)) as [Hnc|Hnc].
    + rewrite Hnc. unfold send. simpl. rewrite IH by done. simpl.
      by rewrite <- app_assoc.
    + apply not_true_is_false in Hnc. rewrite Hnc. by rewrite IH.
Qed.

Lemma Read_spec db ch toread r :
  top db = Some r -> wf_root r -> IsReadOnly db = true \/ closed ch = false ->
  let locs := (fun k => default zeroLocation (locate (reverse r) false k))
                <$> toread in
  indexToLocation db toread = Ok locs
  /\ Read db ch toread
     = Ok (value <$> locs,
           if IsReadOnly db then ch
           else {| buf := buf ch ++ filter (fun l => needsCopy l = true) locs;
                   closed := false |}).
Proof.
  intros Htop Hwf Hopen locs.
  pose proof (indexToLocation_spec db toread r Htop Hwf) as Hloc.
  split; [done|]. unfold Read. rewrite Hloc. simpl.
  destruct (IsReadOnly db); simpl; [done|].
  destruct Hopen as [|Hopen]; [done|]. by rewrite sendAll_open.
Qed.

(** C2: on a well-formed store and an open cache, [Read] of [n] keys
    returns [n] entries; entry [i] is the value of key [i] in the ring
    with the largest name among those that hold it, and nil when no ring
    holds it. *)
Theorem Read_newest_value db ch toread r :
  top db = Some r -> wf_root r -> IsReadOnly db = true \/ closed ch = false ->
  exists vals ch',
    Read db ch toread = Ok (vals, ch')
    /\ length vals = length toread
    /\ forall i k, toread !! i = Some k ->
         exists o, vals !! i = Some o
           /\ match o with
              | Some v =>
                  exists name b,
                    (name, SubBucket b) ∈ r /\ (k, v) ∈ b
                    /\ forall name' b',
                         (name', SubBucket b') ∈ r -> k ∈ keys b' ->
                         Bytes.be name' <= Bytes.be name
              | None => ~ present r k
              end.
Proof.
  intros Htop Hwf Hopen.
  destruct (Read_spec db ch toread r Htop Hwf Hopen) as [_ Hread].
  eexists _, _. split; [exact Hread|]. split.
  { by rewrite !length_fmap. }
  intros i k Hi. rewrite !list_lookup_fmap, Hi. simpl.
  eexists. split; [done|].
  destruct (locate (reverse r) false k) as [loc|] eqn:Hloc; simpl.
  - destruct (locate_newest r k loc Hwf Hloc)
      as (name & b & v & Hin & Hk & -> & Hmax & _).
    simpl. by exists name, b.
  - by apply locate_absent.
Qed.

Lemma Read_newest_value_witness :
  exists db1 db2 db3,
    Write fresh [pair "k" "old"] = Ok db1
    /\ CycleNodes defaults db1 = Ok db2
    /\ Write db2 [pair "k" "new"] = Ok db3
    /\ exists ch',
         Read db3 emptyChan [str "k"; str "x"]
         = Ok ([Some (str "new"); None], ch').
Proof.
  eexists _, _, _. split; [reflexivity|]. split; [reflexivity|].
  split; [reflexivity|].
  match goal with
  | |- exists ch', Read ?db _ ?ks = _ =>
      destruct (Read_newest_value db emptyChan ks (rings db) eq_refl
                  (wf_rootb_sound (rings db) eq_refl) (or_intror eq_refl))
        as (vals & ch' & Hread & _)
  end.
  exists ch'. rewrite Hread. vm_compute in Hread.
  by injection Hread as <- <-.
Defined.

(** C7 as stated fails on a read-only instance: the key found in the
    older ring is flagged, but [Read] sends nothing. *)
Lemma Read_readonly_enqueues_nothing :
  indexToLocation readOnlyDB [str "k"]
  = Ok [{| bucket := 0; key := str "k"; value := Some (str "v");
           needsCopy := true |}]
  /\ Read readOnlyDB emptyChan [str "k"] = Ok ([Some (str "v")], emptyChan).
Proof. split; reflexivity. Qed.

(** C7 (amended): on a well-formed store, [Read] locates one entry per
    key; the entry of key [i] is flagged for promotion exactly when some
    ring holds the key and the newest ring does not, and then carries
    the key, the value and the id of the ring it was found in.  On a
    writable instance with an open channel, [Read] enqueues exactly the
    flagged entries, in batch order.  On a read-only instance the
    entries and their flags are the same as on any instance over the
    same store, but [Read] enqueues nothing: the channel is returned as
    it was. *)
Theorem Read_promotion_requests db ch toread r :
  top db = Some r -> wf_root r -> IsReadOnly db = true \/ closed ch = false ->
  exists locs ch',
    indexToLocation db toread = Ok locs
    /\ Read db ch toread = Ok (value <$> locs, ch')
    /\ length locs = length toread
    /\ (IsReadOnly db = false ->
        buf ch' = buf ch ++ filter (fun l => needsCopy l = true) locs
        /\ closed ch' = false)
    /\ (IsReadOnly db = true -> ch' = ch)
    /\ (forall db2, top db2 = top db -> indexToLocation db2 toread = Ok locs)
    /\ forall i k, toread !! i = Some k ->
         exists loc, locs !! i = Some loc
           /\ (needsCopy loc = true
               <-> present r k
                   /\ forall name b, Last r = Some (name, SubBucket b) ->
                                     k ∉ keys b)
           /\ (needsCopy loc = true ->
               exists name b v,
                 (name, SubBucket b) ∈ r /\ (k, v) ∈ b
                 /\ loc = {| bucket := Bytes.be name; key := k;
                             value := Some v; needsCopy := true |}).
Proof.
  intros Htop Hwf Hopen.
  destruct (Read_spec db ch toread r Htop Hwf Hopen) as [Hloc Hread].
  eexists _, _. split; [exact Hloc|]. split; [exact Hread|].
  split; [by rewrite length_fmap|].
  split; [by intros ->|]. split; [by intros ->|].
  split.
  { intros db2 Htop2. apply indexToLocation_spec; [congruence | done]. }
  intros i k Hi. rewrite list_lookup_fmap, Hi. simpl.
  eexists. split; [done|].
  destruct (locate (reverse r) false k) as [loc|] eqn:Hlocate; simpl.
  - destruct (locate_newest r k loc Hwf Hlocate)
      as (name & b & v & Hin & Hk & Hloceq & Hmax & Hnewest).
    destruct (wf_root_ring r name b Hwf Hin) as [Hlen Hb].
    pose proof Hwf as [Hs _]. split; [split|].
    + intros Hnc. split.
      * exists name, b. split; [done|]. by eapply elem_keys.
      * intros nm bn Hlast Hkn.
        assert (Hinn : (nm, SubBucket bn) ∈ r) by by apply last_Some_elem_of.
        destruct (wf_root_ring r nm bn Hwf Hinn) as [Hlenn _].
        pose proof (Hmax nm bn Hinn Hkn) as Hle1.
        pose proof (wf_root_largest r nm (SubBucket bn) Hwf Hlast) as Hlarge.
        rewrite Forall_forall in Hlarge.
        pose proof (Hlarge name (elem_keys _ _ _ Hin)) as Hle2.
        simpl in Hle2.
        assert (nm = name) as -> by (apply be_inj; [congruence | lia]).
        apply get_Some in Hin; [|done]. apply get_Some in Hinn; [|done].
        assert (bn = b) as -> by congruence.
        apply Hnewest in Hlast. congruence.
    + intros [_ Hnot]. destruct (needsCopy loc) eqn:Hnc; [done|].
      exfalso. destruct Hnewest as [Hn _].
      eapply Hnot; [exact (Hn eq_refl)|]. by eapply elem_keys.
    + intros Hnc. exists name, b, v. rewrite Hnc in Hloceq. done.
  - split; [split|]; try done.
    intros [Hpres _]. by apply locate_absent in Hlocate.
Qed.

Lemma Read_promotion_requests_witness :
  let db := {| IsReadOnly := false; top := top readOnlyDB |} in
  (exists locs ch',
     indexToLocation db [str "k"; str "x"] = Ok locs
     /\ Read db emptyChan [str "k"; str "x"] = Ok (value <$> locs, ch')
     /\ buf ch' = [{| bucket := 0; key := str "k"; value := Some (str "v");
                      needsCopy := true |}])
  /\ (exists locs,
        indexToLocation readOnlyDB [str "k"; str "x"] = Ok locs
        /\ indexToLocation db [str "k"; str "x"] = Ok locs
        /\ Read readOnlyDB emptyChan [str "k"; str "x"]
           = Ok (value <$> locs, emptyChan)).
Proof.
  intros db. split.
  - destruct (Read_promotion_requests db emptyChan [str "k"; str "x"]
                (rings db) eq_refl (wf_rootb_sound (rings db) eq_refl)
                (or_intror eq_refl))
      as (locs & ch' & Hloc & Hread & _ & Hbuf & _).
    exists locs, ch'. split; [done|]. split; [done|].
    destruct (Hbuf eq_refl) as [-> _].
    vm_compute in Hloc. by injection Hloc as <-.
  - destruct (Read_promotion_requests readOnlyDB emptyChan
                [str "k"; str "x"] (rings db) eq_refl
                (wf_rootb_sound (rings db) eq_refl) (or_introl eq_refl))
      as (locs & ch' & Hloc & Hread & _ & _ & Hch & Hsame & _).
    exists locs. split; [done|]. split; [by apply Hsame|].
    by rewrite (Hch eq_refl) in Hread.
Defined.

End ReadFacts.

(** *** The promoter *)

Section PromoterFacts.
Import Bolt Boltcycle.
Implicit Types (r : root) (b : ring) (db : DB).

Lemma store_same_rings name b r :
  sorted r -> is_Some (Bucket name r) ->
  sorted (store name b r)
  /\ forall n, is_Some (Bucket n (store name b r)) <-> is_Some (Bucket n r).
Proof.
  intros Hs Hex. unfold store. split; [by apply put_sorted|].
  intros n. unfold Bucket in *. rewrite get_put by done.
  destruct (decide (n = name)) as [->|Hne]; [|done].
  split; [done | by eexists].
Qed.

Lemma cleanupBucketsFunc_same_rings oldName lastName readLoc r r' d :
  sorted r -> is_Some (Bucket oldName r) -> is_Some (Bucket lastName r) ->
  cleanupBucketsFunc oldName lastName readLoc r = Ok (r', d) ->
  sorted r'
  /\ forall n, is_Some (Bucket n r') <-> is_Some (Bucket n r).
Proof.
  intros Hs Hold Hlast. unfold cleanupBucketsFunc.
  set (old := default [] (Bucket oldName r)).
  set (k := fst <$> seek (key readLoc) old).
  set (r1 := if Bytes.Equal k (key readLoc)
             then store oldName (CursorDelete k old) r else r).
  assert (H1 : sorted r1
               /\ forall n, is_Some (Bucket n r1) <-> is_Some (Bucket n r)).
  { subst r1. destruct (Bytes.Equal k (key readLoc)); [|done].
    by apply store_same_rings. }
  destruct H1 as [Hs1 Hsame1].
  destruct (Put _ _ _) as [b'| |]; simpl; try done.
  intros [= <- <-].
  destruct (store_same_rings lastName b' r1 Hs1) as [Hs2 Hsame2].
  { by apply Hsame1. }
  split; [done|]. intros n. by rewrite Hsame2.
Qed.

Lemma moveGroup_same_rings oldName lastName readLocs st st' :
  sorted st.1 -> is_Some (Bucket oldName st.1) ->
  is_Some (Bucket lastName st.1) ->
  moveGroup oldName lastName readLocs st = Ok st' ->
  sorted st'.1
  /\ forall n, is_Some (Bucket n st'.1) <-> is_Some (Bucket n st.1).
Proof.
  revert st. induction readLocs as [|rs rest IH];
    intros [r [rc dc]] Hs Hold Hlast; simpl.
  - by intros [= <-].
  - destruct (cleanupBucketsFunc oldName lastName rs r) as [[r1 d]| |] eqn:Hc;
      simpl; try done.
    destruct (cleanupBucketsFunc_same_rings _ _ _ _ _ _ Hs Hold Hlast Hc)
      as [Hs1 Hsame1].
    intros Hrest. apply IH in Hrest as [Hs' Hsame']; simpl.
    + split; [done|]. intros n. rewrite Hsame'. simpl. apply Hsame1.
    + done.
    + by apply Hsame1.
    + by apply Hsame1.
Qed.

(** The map [bucketIDToReadLocations] groups the batch by source ring,
    each group in batch order. *)
Lemma bucketIDToReadLocations_lookup batch id :
  bucketIDToReadLocations batch !! id
  = match filter (fun rl => bucket rl = id) batch with
    | [] => None
    | group => Some group
    end.
Proof.
  unfold bucketIDToReadLocations.
  induction batch as [|x batch IH] using rev_ind; [done|].
  rewrite foldl_app, filter_app. cbn [foldl]. rewrite filter_cons, filter_nil.
  rewrite lookup_insert.
  destruct (decide (bucket x = id)) as [->|Hne].
  - rewrite IH. by destruct (filter _ batch).
  - rewrite IH, app_nil_r. done.
Qed.

(** A group whose source ring is gone contributes nothing: the loop over
    the groups runs as if the group were not in the batch. *)
Lemma moveGroups_skip lastName groups st r0 :
  sorted st.1 -> is_Some (Bucket lastName st.1) ->
  (forall n, is_Some (Bucket n st.1) <-> is_Some (Bucket n r0)) ->
  moveGroups lastName groups st
  = moveGroups lastName (filter (sourceExists r0) groups) st.
Proof.
  revert st. induction groups as [|[bucketID readLocs] groups IH];
    intros [r cnt] Hs Hlast Hsame; [done|]. simpl in Hs, Hlast, Hsame.
  rewrite filter_cons. cbn [moveGroups fst].
  destruct (Bucket (Bytes.PutUint64 bucketID) r) as [old|] eqn:Hold.
  - rewrite decide_True.
    2: { unfold sourceExists. simpl. apply Hsame. rewrite Hold. by eexists. }
    cbn [moveGroups fst]. rewrite Hold.
    destruct (moveGroup _ lastName readLocs (r, cnt)) as [st'| |] eqn:Hg;
      simpl; try done.
    destruct (moveGroup_same_rings (Bytes.PutUint64 bucketID) lastName
                readLocs (r, cnt) st' Hs ltac:(simpl; by rewrite Hold; eexists)
                Hlast Hg) as [Hs' Hsame'].
    apply IH; [done | by apply Hsame' |].
    intros n. by rewrite Hsame'.
  - rewrite decide_False.
    2: { unfold sourceExists. simpl. rewrite <- Hsame, Hold.
         by intros [? ?]. }
    by apply IH.
Qed.

Lemma moveGroups_all_missing lastName groups st :
  Forall (fun g => ~ sourceExists st.1 g) groups ->
  moveGroups lastName groups st = Ok st.
Proof.
  destruct st as [r cnt]. simpl.
  induction 1 as [|[bucketID readLocs] groups Hg _ IH]; [done|].
  cbn [moveGroups fst]. unfold sourceExists in Hg. simpl in Hg.
  destruct (Bucket (Bytes.PutUint64 bucketID) r); [|done].
  exfalso. apply Hg. by eexists.
Qed.

(** C1 as stated fails: the request for key "k", read from ring 0 before
    rotation dropped that ring, is processed without error and the newest
    ring still does not hold "k". *)
Lemma moveRecentReads_drops_stale :
  Bucket (Bytes.PutUint64 (bucket staleRead)) (rings rotatedDB) = None
  /\ moveRecentReads rotatedDB [staleRead] = Ok (rotatedDB, (0, 0))
  /\ Last (rings rotatedDB) = Some (Bytes.PutUint64 2, SubBucket [])
  /\ (exists b, Bucket (Bytes.PutUint64 2) (rings rotatedDB) = Some b
                /\ get (key staleRead) b = None).
Proof.
  split; [reflexivity|]. split; [reflexivity|]. split; [reflexivity|].
  by exists [].
Qed.

(** C1 (amended): when the promoter processes a batch and a group's
    source ring no longer exists, the whole group is skipped: the
    transaction does what it would do on the batch without that group (no
    deletion, no insertion into the newest ring, nothing counted, no
    error), in whatever order the groups are taken; a batch made of such
    groups only leaves the store as it was. *)
Theorem moveRecentReads_missing_source groups db r :
  top db = Some r -> sorted r ->
  moveRecentReadsIn groups db
  = moveRecentReadsIn (filter (sourceExists r) groups) db
  /\ (Forall (fun g => ~ sourceExists r g) groups ->
      IsReadOnly db = false ->
      (exists name b, Last r = Some (name, SubBucket b)) ->
      moveRecentReadsIn groups db
      = Ok ({| IsReadOnly := false; top := Some r |}, (0, 0))).
Proof.
  intros Htop Hs. split.
  - unfold moveRecentReadsIn, Update. destruct (IsReadOnly db); [done|].
    rewrite Htop. unfold moveRecentReads_tx.
    destruct (fst <$> Last r) as [lastName|]; [|done].
    destruct (Bucket lastName r) as [lastBucket|] eqn:Hlast; [|done].
    rewrite (moveGroups_skip lastName groups (r, (0, 0)) r); try done;
      simpl; rewrite Hlast; by eexists.
  - intros Hall Hro (name & b & Hlast).
    unfold moveRecentReadsIn, Update. rewrite Hro, Htop.
    unfold moveRecentReads_tx. rewrite Hlast.
    change (fst <$> Some (name, SubBucket b)) with (Some name).
    cbv beta iota. rewrite (Bucket_last r name b Hs Hlast).
    by rewrite moveGroups_all_missing.
Qed.

Lemma moveRecentReads_missing_source_witness :
  moveRecentReadsIn [(0, [staleRead]); (1, [])] rotatedDB
  = moveRecentReadsIn [(1, [])] rotatedDB.
Proof.
  exact (proj1 (moveRecentReads_missing_source [(0, [staleRead]); (1, [])]
                  rotatedDB (rings rotatedDB) eq_refl
                  (sortedb_sound (keys (rings rotatedDB)) eq_refl))).
Defined.

End PromoterFacts.

(** *** The promoter's intake *)

Section IntakeFacts.
Import Bolt Boltcycle.

Lemma drainMore_spec q acc maxBatchSize :
  let res := drainMore q acc maxBatchSize in
  acc ++ q = res.1 ++ res.2
  /\ (length acc <= length res.1)%nat
  /\ (Z.of_nat (length acc) <= maxBatchSize ->
      Z.of_nat (length res.1) <= maxBatchSize)
  /\ (Z.of_nat (length res.1) < maxBatchSize -> res.2 = []).
Proof.
  revert acc. induction q as [|rm q IH]; intros acc; simpl.
  - rewrite app_nil_r. repeat split; try done; lia.
  - destruct (Z.ltb_spec (Z.of_nat (length acc)) maxBatchSize) as [Hlt|Hge];
      simpl.
    + destruct (IH (acc ++ [rm])) as (Happ & Hlen & Hle & Hrest).
      rewrite length_app in Hlen, Hle. simpl in Hlen, Hle.
      split; [by rewrite <- Happ, <- app_assoc|].
      split; [lia|]. split; [intros _; apply Hle; lia | done].
    + repeat split; try done; lia.
Qed.

Lemma drainAllMovements_spec ch maxBatchSize :
  1 <= maxBatchSize ->
  match drainAllMovements ch maxBatchSize with
  | Drained allMovements ch' =>
      1 <= Z.of_nat (length allMovements) <= maxBatchSize
      /\ buf ch = allMovements ++ buf ch'
      /\ closed ch' = closed ch
      /\ (Z.of_nat (length allMovements) < maxBatchSize -> buf ch' = [])
  | DrainNil => buf ch = [] /\ closed ch = true
  | DrainWaits => buf ch = [] /\ closed ch = false
  | DrainPanics => False
  end.
Proof.
  intros Hmax. unfold drainAllMovements.
  destruct (Z.ltb_spec maxBatchSize 0); [lia|].
  destruct (buf ch) as [|rm q] eqn:Hbuf.
  - by destruct (closed ch).
  - pose proof (drainMore_spec q [rm] maxBatchSize) as Hmore.
    destruct (drainMore q [rm] maxBatchSize) as [allMovements q'].
    simpl in Hmore. destruct Hmore as (Happ & Hlen & Hle & Hrest).
    simpl. repeat split; try done; lia.
Qed.

Lemma configured_maxBatchSize optionalParameters :
  maxBatchSize (configured optionalParameters) = 1000.
Proof.
  unfold configured.
  assert (H : forall c, maxBatchSize c = 1000 ->
                maxBatchSize (foldl applyOption c optionalParameters) = 1000).
  { induction optionalParameters as [|o rest IH]; intros c Hc; simpl; [done|].
    apply IH. by destruct o. }
  by apply H.
Qed.

Lemma Put_no_panic k v b : Put k v b <> Panic.
Proof.
  unfold Put. destruct k; [done|]. destruct (MaxKeySize <? _); [done|].
  by destruct (MaxValueSize <? _).
Qed.

Lemma moveGroup_no_panic oldName lastName readLocs st :
  moveGroup oldName lastName readLocs st <> Panic.
Proof.
  revert st. induction readLocs as [|rs rest IH]; intros [r [rc dc]]; simpl;
    [done|].
  unfold cleanupBucketsFunc.
  destruct (Put _ _ _) as [b| |] eqn:Hput; simpl; try done;
    first [apply IH | by apply Put_no_panic in Hput].
Qed.

Lemma moveGroups_no_panic lastName groups st :
  moveGroups lastName groups st <> Panic.
Proof.
  revert st. induction groups as [|[bucketID readLocs] groups IH];
    intros [r cnt]; cbn [moveGroups fst]; [done|].
  destruct (Bucket _ r); [|apply IH].
  destruct (moveGroup _ lastName readLocs (r, cnt)) as [st'| |] eqn:Hg;
    simpl; try done;
    first [apply IH | by apply moveGroup_no_panic in Hg].
Qed.

Lemma moveRecentReadsIn_no_panic groups db :
  moveRecentReadsIn groups db <> Panic.
Proof.
  unfold moveRecentReadsIn, Update. destruct (IsReadOnly db); [done|].
  unfold moveRecentReads_tx. destruct (top db) as [r|]; [|done].
  destruct (fst <$> Last r) as [lastName|]; [|done].
  destruct (Bucket lastName r); [|done].
  destruct (moveGroups lastName groups (r, (0, 0))) as [[r' cnt]| |] eqn:Hg;
    simpl; try done.
  by apply moveGroups_no_panic in Hg.
Qed.

Lemma readMovementLoopN_spec fuel c db ch :
  1 <= maxBatchSize c -> (length (buf ch) < fuel)%nat ->
  let run := readMovementLoopN fuel c db ch in
  Forall (fun batch => 1 <= Z.of_nat (length batch) <= maxBatchSize c)
    (delivered run)
  /\ concat (delivered run) = buf ch
  /\ finalChan run = {| buf := []; closed := closed ch |}
  /\ ending run = Some (if closed ch then Returned else Waiting).
Proof.
  intros Hmax. revert db ch.
  induction fuel as [|fuel IH]; intros db ch Hfuel; [lia|].
  cbn [readMovementLoopN].
  pose proof (drainAllMovements_spec ch (maxBatchSize c) Hmax) as Hdrain.
  destruct (drainAllMovements ch (maxBatchSize c)) as [| | |batch ch'].
  - destruct Hdrain as [Hbuf Hcl]. destruct ch as [q cl]. simpl in *.
    subst. by repeat split.
  - destruct Hdrain as [Hbuf Hcl]. destruct ch as [q cl]. simpl in *.
    subst. by repeat split.
  - done.
  - destruct Hdrain as (Hlen & Hbuf & Hcl & _).
    assert (Hfuel' : (length (buf ch') < fuel)%nat).
    { rewrite Hbuf, length_app in Hfuel. lia. }
    assert (Hstep : forall db1 failed,
      let run := deliver batch failed (readMovementLoopN fuel c db1 ch') in
      Forall (fun batch => 1 <= Z.of_nat (length batch) <= maxBatchSize c)
        (delivered run)
      /\ concat (delivered run) = buf ch
      /\ finalChan run = {| buf := []; closed := closed ch |}
      /\ ending run = Some (if closed ch then Returned else Waiting)).
    { intros db1 failed.
      destruct (IH db1 ch' Hfuel') as (Hall & Hcat & Hfin & Hend).
      simpl. rewrite Hcat, Hfin, Hend, Hcl. by repeat split; [constructor|..]. }
    destruct (moveRecentReads db batch) as [[db' cnt]|e|] eqn:Hmove.
    + apply Hstep.
    + apply Hstep.
    + by apply moveRecentReadsIn_no_panic in Hmove.
Qed.

(** C9: with [max_batch_size >= 1] (the value [New] sets is 1000),
    [drainAllMovements] waits while the channel is empty and open, returns
    nil exactly on a closed and empty channel, and otherwise returns the
    oldest requests of the channel, at least one and at most
    [max_batch_size], all of them if fewer are buffered; so every batch
    [readMovementLoop] hands to [moveRecentReads] has between 1 and
    [max_batch_size] items, and the loop returns only once the channel is
    closed and drained. *)
Theorem drainAllMovements_batch c db ch :
  1 <= maxBatchSize c ->
  match drainAllMovements ch (maxBatchSize c) with
  | Drained allMovements ch' =>
      1 <= Z.of_nat (length allMovements) <= maxBatchSize c
      /\ buf ch = allMovements ++ buf ch'
      /\ closed ch' = closed ch
      /\ (Z.of_nat (length allMovements) < maxBatchSize c -> buf ch' = [])
  | DrainNil => buf ch = [] /\ closed ch = true
  | DrainWaits => buf ch = [] /\ closed ch = false
  | DrainPanics => False
  end
  /\ (drainAllMovements ch (maxBatchSize c) = DrainNil
      <-> buf ch = [] /\ closed ch = true)
  /\ let run := readMovementLoop c db ch in
     Forall (fun batch => 1 <= Z.of_nat (length batch) <= maxBatchSize c)
       (delivered run)
     /\ concat (delivered run) = buf ch
     /\ (ending run = Some Returned <-> closed ch = true).
Proof.
  intros Hmax.
  pose proof (drainAllMovements_spec ch (maxBatchSize c) Hmax) as Hdrain.
  split; [exact Hdrain|]. split.
  - split.
    + intros Hnil. by rewrite Hnil in Hdrain.
    + intros [Hbuf Hcl]. unfold drainAllMovements.
      destruct (Z.ltb_spec (maxBatchSize c) 0); [lia|].
      by rewrite Hbuf, Hcl.
  - destruct (readMovementLoopN_spec (S (length (buf ch))) c db ch Hmax
                ltac:(lia)) as (Hall & Hcat & _ & Hend).
    split; [done|]. split; [done|].
    unfold readMovementLoop. rewrite Hend. by destruct (closed ch).
Qed.

Lemma drainAllMovements_batch_witness :
  let c := configured [OptCycleLen 3] in
  1 <= maxBatchSize c
  /\ length <$> delivered (readMovementLoop c rotatedDB closingChan) = [3%nat]
  /\ ending (readMovementLoop c rotatedDB closingChan) = Some Returned.
Proof.
  intros c. split; [done|].
  destruct (drainAllMovements_batch c rotatedDB closingChan ltac:(done))
    as (_ & _ & _ & _ & Hend).
  split; [reflexivity|]. by apply Hend.
Defined.

End IntakeFacts.

(** *** The heap *)

Section HeapFacts.
Import Heap.
Implicit Types (h : cursorHeap) (e : stringCursor).

Lemma Swap_length h i j : length (Swap h i j) = length h.
Proof.
  unfold Swap. destruct (h !! i), (h !! j); try done.
  by rewrite !length_insert.
Qed.

Lemma Swap_perm h i j : Swap h i j ≡ₚ h.
Proof.
  unfold Swap. destruct (h !! i) as [a|] eqn:Hi; [|done].
  destruct (h !! j) as [b|] eqn:Hj; [|done].
  by apply Permutation_insert_swap.
Qed.

Lemma Swap_lookup h i j c :
  (i < length h)%nat -> (j < length h)%nat ->
  Swap h i j !! c
  = h !! (if decide (c = i) then j else if decide (c = j) then i else c).
Proof.
  intros Hi Hj. unfold Swap.
  destruct (lookup_lt_is_Some_2 h i Hi) as [a Ha].
  destruct (lookup_lt_is_Some_2 h j Hj) as [b Hb].
  rewrite Ha, Hb.
  destruct (decide (c = i)) as [->|Hci].
  - by rewrite list_lookup_insert_eq by by rewrite length_insert.
  - rewrite list_lookup_insert_ne by done.
    destruct (decide (c = j)) as [->|Hcj].
    + by rewrite list_lookup_insert_eq.
    + by rewrite list_lookup_insert_ne.
Qed.

Lemma headAt_Swap h i j c :
  (i < length h)%nat -> (j < length h)%nat ->
  headAt (Swap h i j) c
  = headAt h (if decide (c = i) then j else if decide (c = j) then i else c).
Proof. intros Hi Hj. unfold headAt. by rewrite Swap_lookup. Qed.

Lemma Less_lt h i j : Less h i j = true <-> Bytes.lt (headAt h i) (headAt h j).
Proof. apply bytes_ltb_lt. Qed.

Lemma Less_false h i j :
  Less h i j = false <-> Bytes.le (headAt h j) (headAt h i).
Proof.
  rewrite <- bytes_not_lt_le, <- Less_lt. by destruct (Less h i j).
Qed.

Lemma downLoop_S fuel h i n :
  downLoop (S fuel) h i n
  = if (n <=? 2 * i + 1)%nat then (h, i)
    else
      let j := if (2 * i + 2 <? n)%nat && Less h (2 * i + 2) (2 * i + 1)
               then (2 * i + 2)%nat else (2 * i + 1)%nat in
      if negb (Less h j i) then (h, i)
      else downLoop fuel (Swap h i j) j n.
Proof.
  cbn [downLoop]. by replace (2 * i + 1 + 1)%nat with (2 * i + 2)%nat by lia.
Qed.

(** The child [down] compares the parent with: in range, and not above
    its sibling. *)
Lemma down_child h i n :
  (2 * i + 1 < n)%nat ->
  let j := if (2 * i + 2 <? n)%nat && Less h (2 * i + 2) (2 * i + 1)
           then (2 * i + 2)%nat else (2 * i + 1)%nat in
  (j = 2 * i + 1 \/ j = 2 * i + 2)%nat /\ (j < n)%nat
  /\ Bytes.le (headAt h j) (headAt h (2 * i + 1))
  /\ ((2 * i + 2 < n)%nat -> Bytes.le (headAt h j) (headAt h (2 * i + 2))).
Proof.
  intros Hlt j. subst j.
  destruct (Nat.ltb_spec (2 * i + 2) n) as [H2|H2]; cbn [andb].
  - destruct (Less h (2 * i + 2) (2 * i + 1)) eqn:HL.
    + apply Less_lt in HL. repeat split; try lia.
      * by apply bytes_lt_le_incl.
      * intros _. apply bytes_le_refl.
    + apply Less_false in HL. repeat split; try lia; try done.
      apply bytes_le_refl.
  - repeat split; try lia. apply bytes_le_refl.
Qed.

(** [down] permutes the first [n] slots and leaves the others alone. *)
Lemma downLoop_perm fuel h i n :
  (n <= length h)%nat ->
  (downLoop fuel h i n).1 ≡ₚ h
  /\ length (downLoop fuel h i n).1 = length h
  /\ forall c, (n <= c)%nat -> (downLoop fuel h i n).1 !! c = h !! c.
Proof.
  revert h i. induction fuel as [|fuel IH]; intros h i Hn; [done|].
  rewrite downLoop_S.
  destruct (Nat.leb_spec n (2 * i + 1)) as [Hge|Hlt]; [done|].
  destruct (down_child h i n Hlt) as (Hjc & Hjn & _). cbv zeta.
  set (j := if _ && _ then _ else _) in *. clearbody j.
  destruct (Less h j i); simpl; [|done].
  destruct (IH (Swap h i j) j) as (Hperm & Hlen & Hout).
  { rewrite Swap_length. lia. }
  split; [by rewrite Hperm, Swap_perm|].
  split; [by rewrite Hlen, Swap_length|].
  intros c Hc. rewrite Hout by done. rewrite Swap_lookup by lia.
  by rewrite !decide_False by lia.
Qed.

(** [down] at [i] restores the heap order when only slot [i] is out of
    place. *)
Lemma downLoop_heap fuel h i n lo :
  (n <= length h)%nat -> (lo <= i)%nat -> (n - i <= fuel)%nat ->
  heapExcept h n lo i -> heapFrom (downLoop fuel h i n).1 n lo.
Proof.
  revert h i. induction fuel as [|fuel IH]; intros h i Hn Hlo Hfuel Hex.
  - simpl. intros p Hp. destruct (decide (p = i)) as [->|Hne].
    + split; intros; lia.
    + by apply Hex.
  - rewrite downLoop_S.
    destruct (Nat.leb_spec n (2 * i + 1)) as [Hge|Hlt].
    { simpl. intros p Hp. destruct (decide (p = i)) as [->|Hne].
      - split; intros; lia.
      - by apply Hex. }
    destruct (down_child h i n Hlt) as (Hjc & Hjn & Hj1 & Hj2). cbv zeta.
    set (j := if _ && _ then _ else _) in *. clearbody j.
    destruct (Less h j i) eqn:HL; simpl.
    + apply Less_lt in HL. apply IH; [by rewrite Swap_length | lia | lia |].
      assert (Hsw : forall c, headAt (Swap h i j) c
                = headAt h (if decide (c = i) then j
                            else if decide (c = j) then i else c)).
      { intros c. apply headAt_Swap; lia. }
      destruct Hex as [Hedges Hgrand]. split.
      * intros p Hp Hpj. rewrite !Hsw.
        destruct (decide (p = i)) as [->|Hpi].
        -- rewrite !(decide_False (P := (2 * i + _ = i)%nat)) by lia.
           split; intros Hc.
           ++ destruct (decide (2 * i + 1 = j)%nat) as [E|E].
              ** by apply bytes_lt_le_incl.
              ** done.
           ++ destruct (decide (2 * i + 2 = j)%nat) as [E|E].
              ** by apply bytes_lt_le_incl.
              ** by apply Hj2.
        -- rewrite (decide_False (P := (p = j))) by done.
           split; intros Hc.
           ++ destruct (decide (2 * p + 1 = i)%nat) as [E|E].
              ** destruct (Hgrand p Hp ltac:(lia)) as [G1 G2].
                 destruct Hjc as [->| ->]; [apply G1 | apply G2]; lia.
              ** rewrite decide_False by lia. by apply Hedges.
           ++ destruct (decide (2 * p + 2 = i)%nat) as [E|E].
              ** destruct (Hgrand p Hp ltac:(lia)) as [G1 G2].
                 destruct Hjc as [->| ->]; [apply G1 | apply G2]; lia.
              ** rewrite decide_False by lia. by apply Hedges.
      * intros p Hp Hchild. assert (p = i) as -> by lia. rewrite !Hsw.
        rewrite decide_True by done.
        rewrite !(decide_False (P := (2 * j + _ = i)%nat)) by lia.
        rewrite !(decide_False (P := (2 * j + _ = j)%nat)) by lia.
        apply Hedges; lia.
    + apply Less_false in HL. intros p Hp.
      destruct (decide (p = i)) as [->|Hne]; [|by apply Hex].
      split; intros Hc; eapply bytes_le_trans; eauto.
Qed.

Lemma heapFrom_root_min h n :
  heapFrom h n 0 ->
  forall c, (c < n)%nat -> Bytes.le (headAt h 0) (headAt h c).
Proof.
  intros Hheap c. induction c as [c IH] using (well_founded_induction lt_wf).
  intros Hc.
  destruct (decide (c = 0%nat)) as [->|Hne]; [apply bytes_le_refl|].
  assert (Hpc : exists q, (c = 2 * q + 1 \/ c = 2 * q + 2)%nat).
  { exists ((c - 1) / 2)%nat.
    pose proof (Nat.div_mod_eq (c - 1) 2) as Hdiv.
    pose proof (Nat.mod_upper_bound (c - 1) 2 ltac:(lia)) as Hmod. lia. }
  destruct Hpc as [q Hq].
  eapply bytes_le_trans; [apply (IH q); lia|].
  destruct (Hheap q ltac:(lia)) as [E1 E2].
  destruct Hq as [->| ->]; [apply E1 | apply E2]; lia.
Qed.

Lemma heapFrom_half h n : heapFrom h n (n / 2).
Proof.
  intros p Hp.
  pose proof (Nat.div_mod_eq n 2) as Hdiv.
  pose proof (Nat.mod_upper_bound n 2 ltac:(lia)) as Hmod.
  split; intros; lia.
Qed.

Lemma heapFrom_except h n i : heapFrom h n (S i) -> heapExcept h n i i.
Proof.
  intros Hheap. split.
  - intros p Hp Hne. apply Hheap. lia.
  - intros p Hp Hchild. lia.
Qed.

Lemma down_fst h i n : (down h i n).1 = (downLoop n h i n).1.
Proof. unfold down. by destruct (downLoop n h i n). Qed.

Lemma initLoop_heap k h n :
  (n <= length h)%nat -> heapFrom h n k ->
  heapFrom (initLoop k h n) n 0
  /\ initLoop k h n ≡ₚ h /\ length (initLoop k h n) = length h.
Proof.
  revert h. induction k as [|i IH]; intros h Hn Hheap; [done|].
  cbn [initLoop]. rewrite down_fst.
  destruct (downLoop_perm n h i n Hn) as (Hperm & Hlen & _).
  destruct (IH (downLoop n h i n).1) as (Hheap' & Hperm' & Hlen').
  - by rewrite Hlen.
  - apply downLoop_heap; [done | lia | lia |]. by apply heapFrom_except.
  - split; [done|]. split; [by rewrite Hperm' | by rewrite Hlen'].
Qed.

Lemma Init_heap h :
  heapFrom (Init h) (length h) 0
  /\ Init h ≡ₚ h /\ length (Init h) = length h.
Proof. apply initLoop_heap; [done | apply heapFrom_half]. Qed.

Lemma headAt_take h n c : (c < n)%nat -> headAt (take n h) c = headAt h c.
Proof. intros Hc. unfold headAt. by rewrite lookup_take_lt. Qed.

Lemma heapFrom_take h n : heapFrom h n 0 -> heapFrom (take n h) n 0.
Proof.
  intros Hheap p Hp. destruct (Hheap p Hp) as [E1 E2].
  split; intros Hc; rewrite !headAt_take by lia; auto.
Qed.

(** [heap.Pop] takes the root off and leaves a heap. *)
Lemma HeapPop_heap c0 rest :
  let h := c0 :: rest in
  heapFrom h (length h) 0 ->
  let h' := (HeapPop h).1 in
  heapFrom h' (length h') 0 /\ h ≡ₚ c0 :: h'.
Proof.
  intros h Hheap. unfold HeapPop, Pop, Len. cbn [fst].
  set (n := (length h - 1)%nat).
  assert (Hlenh : length h = S n) by (subst n h; simpl; lia).
  rewrite down_fst.
  destruct (downLoop_perm n (Swap h 0 n) 0 n) as (Hperm & Hlen & Hout).
  { rewrite Swap_length. lia. }
  set (h2 := (downLoop n (Swap h 0 n) 0 n).1) in *.
  rewrite Swap_length in Hlen. rewrite Hlen, Hlenh.
  replace (S n - 1)%nat with n by lia.
  assert (Hlast : h2 !! n = Some c0).
  { rewrite Hout by done. rewrite Swap_lookup by lia.
    destruct (decide (n = 0%nat)) as [->|Hn0]; [done|].
    by rewrite decide_True. }
  assert (Hsplit : h2 = take n h2 ++ [c0]).
  { rewrite <- (take_drop n h2) at 1. f_equal.
    apply list_eq. intros [|c]; simpl.
    - by rewrite lookup_drop, Nat.add_0_r.
    - rewrite lookup_drop. apply lookup_ge_None. lia. }
  split.
  - rewrite length_take, Hlen, Hlenh.
    replace (n `min` S n)%nat with n by lia.
    apply heapFrom_take. subst h2.
    apply downLoop_heap; [rewrite Swap_length; lia | lia | lia |].
    split.
    + intros p Hp Hne. destruct (Hheap p Hp) as [E1 E2].
      rewrite !headAt_Swap by lia.
      split; intros Hc.
      * rewrite !decide_False by lia. apply E1. lia.
      * rewrite !decide_False by lia. apply E2. lia.
    + intros p Hp Hchild. lia.
  - rewrite <- (Swap_perm h 0 n), <- Hperm. rewrite Hsplit at 1.
    by rewrite Permutation_app_comm.
Qed.

Lemma up_root h : up h 0 = h.
Proof. done. Qed.

Lemma Fix_root h : Fix h 0 = (downLoop (length h) h 0 (length h)).1.
Proof.
  unfold Fix, Len, down. destruct (downLoop _ h 0 _) as [h1 i]. cbn [fst].
  destruct (0 <? i)%nat; [done | apply up_root].
Qed.

(** [heap.Fix] at the root, after the root was replaced. *)
Lemma Fix_root_heap c0 e rest :
  heapFrom (c0 :: rest) (length (c0 :: rest)) 0 ->
  let h' := Fix (e :: rest) 0 in
  heapFrom h' (length h') 0 /\ h' ≡ₚ e :: rest.
Proof.
  intros Hheap. cbv zeta. rewrite Fix_root.
  destruct (downLoop_perm (length (e :: rest)) (e :: rest) 0
              (length (e :: rest)) ltac:(done)) as (Hperm & Hlen & _).
  split; [|done]. rewrite Hlen.
  apply downLoop_heap; [done | lia | lia |]. split.
  - intros p Hp Hne. destruct p as [|p]; [done|].
    destruct (Hheap (S p) Hp) as [E1 E2]. split; intros Hc.
    + by apply E1.
    + by apply E2.
  - intros p Hp Hchild. lia.
Qed.

Lemma allPending_cons e h : allPending (e :: h) = pending e ++ allPending h.
Proof. done. Qed.

Lemma allPending_perm h h' : h ≡ₚ h' -> allPending h ≡ₚ allPending h'.
Proof. intros Hp. unfold allPending. by rewrite Hp. Qed.

Lemma cursorOk_perm h h' : h ≡ₚ h' -> Forall cursorOk h -> Forall cursorOk h'.
Proof. intros Hp. by rewrite Hp. Qed.

(** In a heap of well-formed cursors the head of the root is the least
    pending key. *)
Lemma heap_least c0 rest :
  heapFrom (c0 :: rest) (length (c0 :: rest)) 0 ->
  Forall cursorOk (c0 :: rest) ->
  Forall (Bytes.le (head c0)) (allPending (c0 :: rest)).
Proof.
  intros Hheap Hok. apply Forall_forall. intros k Hk.
  unfold allPending in Hk. apply list_elem_of_bind in Hk as (e & Hke & He).
  apply list_elem_of_lookup_1 in He as [c Hc].
  pose proof (heapFrom_root_min _ _ Hheap c (lookup_lt_Some _ _ _ Hc)) as Hle.
  unfold headAt in Hle. rewrite Hc in Hle. simpl in Hle.
  eapply bytes_le_trans; [exact Hle|].
  rewrite Forall_forall in Hok.
  destruct (Hok e (list_elem_of_lookup_2 _ _ _ Hc)) as [Hs _].
  unfold pending in *. apply elem_of_cons in Hke as [->|Hin].
  - apply bytes_le_refl.
  - apply StronglySorted_inv in Hs as [_ Hall]. rewrite Forall_forall in Hall.
    by apply bytes_lt_le_incl, Hall.
Qed.

(** One round of [verifyHeap] that does not report: the root's head is
    taken off, and what is left is again a heap of well-formed cursors. *)
Lemma verify_step c0 rest :
  heapFrom (c0 :: rest) (length (c0 :: rest)) 0 ->
  Forall cursorOk (c0 :: rest) ->
  let h' := match cursor c0 with
            | [] => (HeapPop (c0 :: rest)).1
            | headBytes :: more =>
                Fix (<[0%nat := {| cursor := more; head := headBytes |}]>
                       (c0 :: rest)) 0
            end in
  heapFrom h' (length h') 0 /\ Forall cursorOk h'
  /\ allPending (c0 :: rest) ≡ₚ head c0 :: allPending h'.
Proof.
  intros Hheap Hok. destruct c0 as [cur m]. simpl.
  pose proof Hok as [[Hs0 Hne0] Hokrest]%Forall_cons.
  destruct cur as [|headBytes more].
  - destruct (HeapPop_heap {| cursor := []; head := m |} rest Hheap)
      as [Hheap' Hperm].
    split; [done|]. split.
    + apply (cursorOk_perm _ _ Hperm) in Hok.
      by apply Forall_cons in Hok as [_ ?].
    + by rewrite (allPending_perm _ _ Hperm).
  - destruct (Fix_root_heap {| cursor := headBytes :: more; head := m |}
                {| cursor := more; head := headBytes |} rest Hheap)
      as [Hheap' Hperm].
    split; [done|]. split.
    + apply (cursorOk_perm _ _ (symmetry Hperm)). constructor; [|done].
      unfold pending in *. simpl in *. split.
      * by apply StronglySorted_inv in Hs0 as [? _].
      * by apply Forall_cons in Hne0 as [_ ?].
    + by rewrite (allPending_perm _ _ Hperm).
Qed.

End HeapFacts.

(** *** VerifyCompressed *)

Section VerifyFacts.
Import Bolt Boltcycle.
Import Heap.

(** What the loop of [verifyHeap] decides: all pending keys are above
    [top] (or [top] is the empty string of the first round) and pairwise
    distinct. *)
Lemma verifyLoop_spec fuel top h :
  heapFrom h (length h) 0 -> Forall cursorOk h ->
  (length (allPending h) < fuel)%nat ->
  verifyLoop fuel top h
  = Some (if decide ((top = [] \/ Forall (Bytes.lt top) (allPending h))
                     /\ NoDup (allPending h))
          then Ok tt else Err errOrderingWrong).
Proof.
  revert top h. induction fuel as [|fuel IH]; intros top h Hheap Hok Hfuel;
    [lia|].
  destruct h as [|c0 rest].
  - simpl. rewrite decide_True; [done|]. split; [right; constructor|].
    constructor.
  - cbn [verifyLoop].
    pose proof (heap_least c0 rest Hheap Hok) as Hleast.
    assert (Hm : head c0 <> []).
    { apply Forall_cons in Hok as [[_ Hne] _].
      by apply Forall_cons in Hne as [? _]. }
    destruct (verify_step c0 rest Hheap Hok) as (Hheap' & Hok' & Hperm).
    set (h' := match cursor c0 with [] => _ | _ => _ end) in *.
    destruct (negb (Bytes.eqb top []) && Bytes.leb (head c0) top) eqn:Htest.
    + apply andb_true_iff in Htest as [Htop Hle].
      apply negb_true_iff, bytes_eqb_neq in Htop. apply bytes_leb_le in Hle.
      rewrite decide_False; [done|]. intros [[Hnil|Hall] _]; [done|].
      rewrite allPending_cons in Hall. unfold pending in Hall. simpl in Hall.
      apply Forall_cons in Hall as [Hlt _].
      eapply bytes_lt_irrefl, bytes_lt_le_trans; eauto.
    + assert (Hrec : verifyLoop fuel (head c0) h'
                = Some (if decide ((head c0 = []
                                    \/ Forall (Bytes.lt (head c0)) (allPending h'))
                                   /\ NoDup (allPending h'))
                        then Ok tt else Err errOrderingWrong)).
      { apply IH; [done | done |].
        pose proof (Permutation_length Hperm) as Hl.
        rewrite length_cons in Hl. lia. }
      assert (Hgoal : verifyLoop fuel (head c0) h'
                = Some (if decide ((top = []
                                    \/ Forall (Bytes.lt top)
                                         (allPending (c0 :: rest)))
                                   /\ NoDup (allPending (c0 :: rest)))
                        then Ok tt else Err errOrderingWrong)).
      { rewrite Hrec. f_equal. apply decide_ext.
        assert (Hleast' : Forall (Bytes.le (head c0)) (allPending h')).
        { rewrite Hperm in Hleast. by apply Forall_cons in Hleast as [_ ?]. }
        assert (Habove : top = [] \/ Bytes.lt top (head c0)).
        { apply andb_false_iff in Htest as [Htop|Hle].
          - left. apply negb_false_iff in Htop. by apply bytes_eqb_eq.
          - right. apply bytes_not_le_lt. intros Hle'.
            apply bytes_leb_le in Hle'. congruence. }
        rewrite (NoDup_Permutation_proper _ _ Hperm), NoDup_cons.
        rewrite Forall_forall in Hleast'. split.
        - intros [[Hnil|Hall] Hnd]; [done|]. split; [|split; [|done]].
          + destruct Habove as [->|Hlt]; [by left|]. right.
            rewrite Hperm. constructor; [done|].
            eapply Forall_impl; [exact Hall|]. intros k Hk.
            by eapply bytes_lt_trans.
          + intros Hin. rewrite Forall_forall in Hall.
            by apply Hall, bytes_lt_irrefl in Hin.
        - intros [_ [Hnotin Hnd]]. split; [|done]. right.
          apply Forall_forall. intros k Hk. pose proof (Hleast' k Hk) as Hle.
          apply bytes_le_lteq in Hle as [Hlt|Heq]; [done|].
          exfalso. apply Hnotin. by rewrite Heq. }
      subst h'. destruct (cursor c0); exact Hgoal.
Qed.

Lemma sorted_NoDup ks : StronglySorted Bytes.lt ks -> NoDup ks.
Proof.
  induction 1 as [|k ks _ IH Hall]; constructor; [|done].
  intros Hin. rewrite Forall_forall in Hall.
  by apply Hall, bytes_lt_irrefl in Hin.
Qed.

Lemma allKeys_present r k : k ∈ allKeys r <-> present r k.
Proof.
  unfold allKeys, present. rewrite list_elem_of_bind. split.
  - intros ([name [b|v]] & Hk & Hin); [|by apply elem_of_nil in Hk].
    by exists name, b.
  - intros (name & b & Hin & Hk). by exists (name, SubBucket b).
Qed.

(** Every key is in at most one ring exactly when the keys of all rings,
    listed ring after ring, are pairwise distinct. *)
Lemma compressed_NoDup r : wf_root r -> NoDup (allKeys r) <-> compressed r.
Proof.
  induction r as [|[name e] r IH]; intros Hwf.
  - split; [|constructor]. intros _ k n1 b1 n2 b2 H. by apply elem_of_nil in H.
  - pose proof Hwf as [[Hlt Hs]%sorted_cons_iff _].
    apply wf_root_cons_inv in Hwf as [(_ & b & He & Hb) Hwf].
    simpl in He. subst e. specialize (IH Hwf).
    unfold allKeys. rewrite bind_cons. fold (allKeys r).
    change (ringKeys (name, SubBucket b)) with (keys b).
    rewrite NoDup_app. rewrite Forall_forall in Hlt. split.
    + intros (_ & Hdisj & Hnd) k n1 b1 n2 b2 Hin1 Hin2 Hk1 Hk2.
      apply elem_of_cons in Hin1 as [[= -> ->]|Hin1];
        apply elem_of_cons in Hin2 as [[= -> ->]|Hin2]; try done.
      * exfalso. apply (Hdisj k Hk1). apply allKeys_present.
        by exists n2, b2.
      * exfalso. apply (Hdisj k Hk2). apply allKeys_present.
        by exists n1, b1.
      * by apply (proj1 IH Hnd k n1 b1 n2 b2).
    + intros Hc. split; [apply sorted_NoDup, Hb|]. split.
      * intros k Hk (n2 & b2 & Hin2 & Hk2)%allKeys_present.
        assert (name = n2) as <-.
        { apply (Hc k name b n2 b2); [left | by right | done | done]. }
        apply elem_keys, Hlt in Hin2. by apply bytes_lt_irrefl in Hin2.
      * apply IH. intros k n1 b1 n2 b2 Hin1 Hin2.
        apply Hc; by right.
Qed.

Lemma createHeapLoop_wf cur r ch :
  wf_root r -> (forall x, x ∈ cur -> x ∈ r) ->
  createHeapLoop cur r ch = Ok (ch ++ omap cursorOf cur).
Proof.
  intros Hwf. revert ch. induction cur as [|[k e] cur IH]; intros ch Hsub.
  - simpl. by rewrite app_nil_r.
  - cbn [createHeapLoop].
    assert (Hin : (k, e) ∈ r) by (apply Hsub; left).
    pose proof Hwf as [Hs Hall]. rewrite Forall_forall in Hall.
    destruct (Hall _ Hin) as (_ & b & He & _). simpl in He. subst e.
    rewrite (Bucket_ring r k b Hs Hin).
    assert (Hsub' : forall x, x ∈ cur -> x ∈ r).
    { intros x Hx. apply Hsub. by right. }
    cbn [omap list_omap]. unfold cursorOf at 1.
    change (ringKeys (k, SubBucket b)) with (keys b).
    destruct (keys b) as [|firstKey rest].
    + by apply IH.
    + rewrite IH by done. by rewrite <- app_assoc.
Qed.

Lemma cursorOf_pending x c : cursorOf x = Some c -> pending c = ringKeys x.
Proof.
  unfold cursorOf. destruct (ringKeys x); [done|]. by intros [= <-].
Qed.

Lemma allPending_cursors r : allPending (omap cursorOf r) = allKeys r.
Proof.
  unfold allPending, allKeys. induction r as [|x r IH]; [done|].
  cbn [omap list_omap]. rewrite bind_cons.
  destruct (cursorOf x) as [c|] eqn:Hc.
  - rewrite bind_cons, IH. by rewrite (cursorOf_pending x c Hc).
  - rewrite IH. unfold cursorOf in Hc. by destruct (ringKeys x).
Qed.

Lemma cursors_ok r : wf_root r -> Forall cursorOk (omap cursorOf r).
Proof.
  intros [_ Hall]. apply Forall_forall. intros c Hc.
  apply list_elem_of_omap in Hc as ([name e] & Hin & Hc).
  rewrite Forall_forall in Hall.
  destruct (Hall _ Hin) as (_ & b & He & [Hs Hne]). simpl in He. subst e.
  apply cursorOf_pending in Hc. unfold cursorOk. by rewrite Hc.
Qed.

(** [VerifyCompressed] on a well-formed store: what it returns is decided
    by whether the keys of all rings are pairwise distinct. *)
Lemma VerifyCompressed_spec db r :
  top db = Some r -> wf_root r ->
  VerifyCompressed db
  = Some (if decide (NoDup (allKeys r)) then Ok tt else Err errOrderingWrong).
Proof.
  intros Htop Hwf. unfold VerifyCompressed, createHeap. rewrite Htop.
  rewrite createHeapLoop_wf by done. simpl app.
  set (ch := omap cursorOf r). unfold verifyHeap.
  destruct (Init_heap ch) as (Hheap & Hperm & Hlen).
  rewrite verifyLoop_spec.
  - f_equal. apply decide_ext.
    rewrite (NoDup_Permutation_proper _ _ (allPending_perm _ _ Hperm)).
    unfold ch. rewrite allPending_cursors. split; [by intros [_ ?]|].
    intros Hnd. split; [by left | done].
  - by rewrite Hlen.
  - apply (cursorOk_perm ch); [done | by apply cursors_ok].
  - rewrite (Permutation_length (allPending_perm _ _ Hperm)). lia.
Qed.

(** C5: on a well-formed store [VerifyCompressed] returns nil exactly
    when every key appears in at most one ring, and [errOrderingWrong]
    exactly when some key appears in more than one; the loop of the
    k-way merge reports at the first key it pops that is not above the key
    popped before it. *)
Theorem VerifyCompressed_compressed db r :
  top db = Some r -> wf_root r ->
  (VerifyCompressed db = Some (Ok tt) <-> compressed r)
  /\ (VerifyCompressed db = Some (Err errOrderingWrong) <-> ~ compressed r)
  /\ ((exists k name1 b1 name2 b2,
         (name1, SubBucket b1) ∈ r /\ (name2, SubBucket b2) ∈ r
         /\ name1 <> name2 /\ k ∈ keys b1 /\ k ∈ keys b2) ->
      VerifyCompressed db = Some (Err errOrderingWrong))
  /\ (forall fuel top c0 rest,
        top <> [] -> Bytes.le (head c0) top ->
        verifyLoop (S fuel) top (c0 :: rest) = Some (Err errOrderingWrong)).
Proof.
  intros Htop Hwf. rewrite (VerifyCompressed_spec db r Htop Hwf).
  pose proof (compressed_NoDup r Hwf) as Hiff.
  assert (H1 : Some (if decide (NoDup (allKeys r)) then Ok tt
                     else Err errOrderingWrong) = Some (Ok tt)
               <-> compressed r).
  { rewrite <- Hiff. destruct (decide (NoDup (allKeys r))); split; try done. }
  assert (H2 : Some (if decide (NoDup (allKeys r)) then Ok tt
                     else Err errOrderingWrong)
               = Some (Err errOrderingWrong) <-> ~ compressed r).
  { rewrite <- Hiff. destruct (decide (NoDup (allKeys r))); split; try done. }
  split; [done|]. split; [done|]. split.
  - intros (k & n1 & b1 & n2 & b2 & Hin1 & Hin2 & Hne & Hk1 & Hk2).
    apply H2. intros Hc. apply Hne. by apply (Hc k n1 b1 n2 b2).
  - intros fuel top c0 rest Htopne Hle. cbn [verifyLoop].
    apply bytes_eqb_neq in Htopne. apply bytes_leb_le in Hle.
    by rewrite Htopne, Hle.
Qed.

Lemma VerifyCompressed_compressed_witness :
  VerifyCompressed duplicatedDB = Some (Err errOrderingWrong)
  /\ exists db', Write fresh [pair "a" "1"] = Ok db'
                 /\ VerifyCompressed db' = Some (Ok tt).
Proof.
  split.
  - destruct (VerifyCompressed_compressed duplicatedDB (rings duplicatedDB)
                eq_refl (wf_rootb_sound (rings duplicatedDB) eq_refl))
      as (_ & _ & Hdup & _).
    apply Hdup.
    exists (str "k"), Bytes.zero8, [kv "a" "1"; kv "k" "v"],
      (Bytes.PutUint64 1), [kv "k" "v"].
    split; [left|]. split; [right; left|]. split; [done|].
    split; [right; left | left].
  - eexists. split; [reflexivity|].
    match goal with
    | |- VerifyCompressed ?db = _ =>
        destruct (VerifyCompressed_compressed db (rings db) eq_refl
                    (wf_rootb_sound (rings db) eq_refl)) as (Hok & _)
    end.
    apply Hok. intros k n1 b1 n2 b2 Hin1 Hin2 _ _.
    apply list_elem_of_singleton in Hin1, Hin2. congruence.
Defined.

(** Why [wf_root] asks for non-empty keys: [verifyHeap] takes an empty
    [top] for "no key popped yet".  bolt stores no empty key ([Put]
    returns [ErrKeyRequired]); in a root that held one in two rings the
    duplicate would pass. *)
Remark verifyHeap_empty_key :
  let r := [(Bytes.zero8, SubBucket [([], str "v")]);
            (Bytes.PutUint64 1, SubBucket [([], str "v")])] in
  ~ wf_root r
  /\ VerifyCompressed {| IsReadOnly := false; top := Some r |} = Some (Ok tt).
Proof.
  split; [|reflexivity].
  intros [_ Hall]. apply Forall_cons in Hall as [(_ & b & [= <-] & _ & Hne) _].
  by apply Forall_cons in Hne as [? _].
Qed.

End VerifyFacts.

(** *** The scenarios of the specification, run on the model *)

Section Scenarios.
Import Bolt Boltcycle.

(** S1: write, then read. *)
Example scenario_write_then_read :
  (db1 ← Write fresh [pair "a" "1"; pair "b" "2"];
   Read db1 emptyChan [str "a"; str "b"; str "c"])
  = Ok ([Some (str "1"); Some (str "2"); None], emptyChan).
Proof. reflexivity. Qed.

(** S2: a key read from an older ring is promoted: after the promoter
    has processed the request the key is in the newest ring only. *)
Example scenario_promotion :
  let c := CycleLen 3 defaults in
  (db1 ← Write fresh [pair "k" "v1"];
   db2 ← CycleNodes c db1;
   db3 ← CycleNodes c db2;
   '(vals, ch) ← Read db3 emptyChan [str "k"];
   let run := readMovementLoop c db3 ch in
   Ok (vals, rings (finalDB run), ending run,
       VerifyCompressed (finalDB run)))
  = Ok ([Some (str "v1")],
        [(Bytes.zero8, SubBucket []);
         (Bytes.PutUint64 1, SubBucket []);
         (Bytes.PutUint64 2, SubBucket [kv "k" "v1"])],
        Some Waiting, Some (Ok tt)).
Proof. reflexivity. Qed.

(** S3: a key ages out after three rotations with [min_rings = 2]. *)
Example scenario_aging_out :
  (db1 ← Write fresh [pair "k" "v"];
   db2 ← rotate_n defaults 3 db1;
   Read db2 emptyChan [str "k"])
  = Ok ([None], emptyChan).
Proof. reflexivity. Qed.

(** S4: overwrite. *)
Example scenario_overwrite :
  (db1 ← Write fresh [pair "k" "v1"];
   db2 ← Write db1 [pair "k" "v2"];
   Read db2 emptyChan [str "k"])
  = Ok ([Some (str "v2")], emptyChan).
Proof. reflexivity. Qed.

(** S5: delete across rings. *)
Example scenario_delete_across_rings :
  (db1 ← Write fresh [pair "k" "v"];
   db2 ← CycleNodes defaults db1;
   db3 ← Write db2 [pair "k" "v2"];
   let '(ret, res) := Delete db3 [str "k"] in
   db4 ← res;
   '(vals, _) ← Read db4 emptyChan [str "k"];
   Ok (ret, vals))
  = Ok ([true], [None]).
Proof. reflexivity. Qed.

End Scenarios.
